(** * KafkaJS protocol decoder ([src/protocol/decoder.js])

    A shallow embedding of the [Decoder] class and of the parts of the
    JavaScript / Node.js platform it relies on, followed by the properties
    of the decoder that the specification states.

    Conventions.
    - A JavaScript Number that holds an integer is a [Z]; the operators
      used by the decoder are in module [JS], with their 32-bit conversions
      written out.  Number addition rounds to the nearest double, see
      [JS.roundNumber].
    - A Node.js [Buffer] is a [list byte]; the methods the decoder calls on
      it are in module [Buffer].
    - The decoder object is the record [Decoder]; a method is a function
      from the decoder state to an [Outcome]: a returned value or a thrown
      error, each with the state the object is left in. *)

From Stdlib Require Import ZArith List Lia Bool.
From Stdlib Require Import Strings.Byte.
Import ListNotations.
Local Open Scope Z_scope.

(** ** JavaScript number operators *)

Module JS.

(** ECMAScript [ToInt32] and [ToUint32] on an integral Number. *)
Definition ToInt32 (x : Z) : Z := (x + 2 ^ 31) mod 2 ^ 32 - 2 ^ 31.
Definition ToUint32 (x : Z) : Z := x mod 2 ^ 32.

(** The shift count of [<<], [>>] and [>>>]: [ToUint32] of the right
    operand, masked to its five low bits. *)
Definition shiftCount (n : Z) : Z := Z.land (ToUint32 n) 31.

(** [a << n], [a >>> n], [a >> n]. *)
Definition shl (a n : Z) : Z := ToInt32 (Z.shiftl (ToInt32 a) (shiftCount n)).
Definition ushr (a n : Z) : Z := Z.shiftr (ToUint32 a) (shiftCount n).
Definition sar (a n : Z) : Z := Z.shiftr (ToInt32 a) (shiftCount n).

(** [a & b] and [a ^ b]: both operands through [ToInt32]. *)
Definition band (a b : Z) : Z := Z.land (ToInt32 a) (ToInt32 b).
Definition bxor (a b : Z) : Z := Z.lxor (ToInt32 a) (ToInt32 b).

(** Unary minus. *)
Definition neg (a : Z) : Z := - a.

(** The largest magnitude below which every integer is a double. *)
Definition MAX_EXACT : Z := 2 ^ 53.

(** Rounding of an exact integer result to the nearest double, ties to
    even: the identity up to [2^53], above it the 53 leading bits are
    kept.  (Magnitudes here stay far below the overflow threshold.) *)
Definition roundNumber (z : Z) : Z :=
  let a := Z.abs z in
  if a <=? MAX_EXACT then z
  else
    let e := Z.log2 a - 52 in
    let q := Z.shiftr a e in
    let r := a - Z.shiftl q e in
    let half := Z.shiftl 1 (e - 1) in
    let q' := if r <? half then q
              else if half <? r then q + 1
              else if Z.even q then q else q + 1 in
    Z.sgn z * Z.shiftl q' e.

(** [a + b] on Numbers. *)
Definition add (a b : Z) : Z := roundNumber (a + b).

(** The value of an indexed read: [None] is [undefined]. *)
Definition value := option Z.

(** [v & m] where [v] may be [undefined]: [ToInt32(undefined)] is 0. *)
Definition band_value (v : value) (m : Z) : Z :=
  band (match v with Some x => x | None => 0 end) m.

(** [v >= m] where [v] may be [undefined]: [undefined] converts to NaN
    and every comparison with NaN is false. *)
Definition ge_value (v : value) (m : Z) : bool :=
  match v with Some x => m <=? x | None => false end.

End JS.

(** ** Node.js Buffer *)

Inductive Error : Type :=
| ERR_OUT_OF_RANGE           (* RangeError of Buffer#readInt*: offset out of range *)
| ERR_BUFFER_OUT_OF_BOUNDS   (* RangeError of Buffer#readInt*: buffer too short *)
| ERR_BIGINT_NAN             (* RangeError of BigInt(NaN) *)
| PlainError (message : Z).  (* Error(offset, ...) thrown by readBigInt64BE *)

Module Buffer.

Definition t := list byte.

Definition byteValue (b : byte) : Z := Z.of_N (Byte.to_N b).

(** [Buffer.byteLength(buf)] and [buf.length]. *)
Definition byteLength (buf : t) : Z := Z.of_nat (length buf).

(** [buf[i]]: [undefined] outside [0 .. length-1]. *)
Definition get (buf : t) (i : Z) : JS.value :=
  if i <? 0 then None
  else option_map byteValue (nth_error buf (Z.to_nat i)).

(** Node's [adjustOffset] for an integral offset. *)
Definition adjustOffset (offset length : Z) : Z :=
  if offset =? 0 then 0
  else if offset <? 0 then
    let offset' := offset + length in
    if 0 <? offset' then offset' else 0
  else if offset <? length then offset
  else length.

(** [buf.slice(start, end)]; [stop = None] is an omitted [end]. *)
Definition slice (buf : t) (start : Z) (stop : option Z) : t :=
  let srcLength := byteLength buf in
  let start' := adjustOffset start srcLength in
  let end' := match stop with
              | Some e => adjustOffset e srcLength
              | None => srcLength
              end in
  let newLength := if start' <? end' then end' - start' else 0 in
  firstn (Z.to_nat newLength) (skipn (Z.to_nat start') buf).

(** Node's [boundsError] for an integral offset. *)
Definition boundsError (length : Z) : Error :=
  if length <? 0 then ERR_BUFFER_OUT_OF_BOUNDS else ERR_OUT_OF_RANGE.

(** Two's-complement reading of a [w]-bit unsigned value. *)
Definition signed (w : Z) (u : Z) : Z :=
  if u <? 2 ^ (w - 1) then u else u - 2 ^ w.

(** [buf.readInt8(offset)]. *)
Definition readInt8 (buf : t) (offset : Z) : Z + Error :=
  match get buf offset with
  | Some val => inl (signed 8 val)
  | None => inr (boundsError (byteLength buf - 1))
  end.

(** [buf.readInt16BE(offset)]. *)
Definition readInt16BE (buf : t) (offset : Z) : Z + Error :=
  match get buf offset, get buf (offset + 1) with
  | Some first, Some last => inl (signed 16 (first * 2 ^ 8 + last))
  | _, _ => inr (boundsError (byteLength buf - 2))
  end.

(** [buf.readInt32BE(offset)]. *)
Definition readInt32BE (buf : t) (offset : Z) : Z + Error :=
  match get buf offset, get buf (offset + 3) with
  | Some first, Some last =>
      match get buf (offset + 1), get buf (offset + 2) with
      | Some b1, Some b2 =>
          inl (JS.shl first 24 + b1 * 2 ^ 16 + b2 * 2 ^ 8 + last)
      | _, _ => inr (boundsError (byteLength buf - 4))
      end
  | _, _ => inr (boundsError (byteLength buf - 4))
  end.

End Buffer.

(** ** The decoder object and the outcome of a method call *)

Record Decoder : Type := mkDecoder {
  buffer : Buffer.t;
  offset : Z
}.

(** [new Decoder(buffer)]. *)
Definition newDecoder (buf : Buffer.t) : Decoder :=
  {| buffer := buf; offset := 0 |}.

Inductive Outcome (A : Type) : Type :=
| Return (a : A) (d : Decoder)
| Throw (e : Error) (d : Decoder).
Arguments Return {A} a d.
Arguments Throw {A} e d.

Definition M (A : Type) : Type := Decoder -> Outcome A.

Definition ret {A} (a : A) : M A := fun d => Return a d.

Definition bind {A B} (m : M A) (k : A -> M B) : M B :=
  fun d => match m d with
           | Return a d' => k a d'
           | Throw e d' => Throw e d'
           end.

(** [this.offset += n]. *)
Definition advance (n : Z) : M unit :=
  fun d => Return tt {| buffer := buffer d; offset := offset d + n |}.

(** Lift a [Buffer] read at the current offset. *)
Definition atOffset (read : Buffer.t -> Z -> Z + Error) : M Z :=
  fun d => match read (buffer d) (offset d) with
           | inl v => Return v d
           | inr e => Throw e d
           end.

Declare Scope decoder_scope.
Delimit Scope decoder_scope with dec.
Notation "x <- m ;; k" := (bind m (fun x => k))
  (at level 61, m at next level, right associativity) : decoder_scope.
Notation "m ;;; k" := (bind m (fun _ => k))
  (at level 61, right associativity) : decoder_scope.
Local Open Scope decoder_scope.

(** The state a call leaves the decoder in, and whether it threw. *)
Definition stateOf {A} (o : Outcome A) : Decoder :=
  match o with Return _ d => d | Throw _ d => d end.

Definition throws {A} (o : Outcome A) : bool :=
  match o with Return _ _ => false | Throw _ _ => true end.

(** ** Constants *)

Definition INT8_SIZE : Z := 1.
Definition INT16_SIZE : Z := 2.
Definition INT32_SIZE : Z := 4.
Definition INT64_SIZE : Z := 8.

Definition MOST_SIGNIFICANT_BIT : Z := 0x80.
Definition OTHER_BITS : Z := 0x7f.

(** ** Cursor and fixed-width reads *)

Definition canReadBytes (length : Z) (d : Decoder) : bool :=
  length <=? Buffer.byteLength (buffer d) - offset d.

Definition canReadInt16 : Decoder -> bool := canReadBytes INT16_SIZE.
Definition canReadInt32 : Decoder -> bool := canReadBytes INT32_SIZE.
Definition canReadInt64 : Decoder -> bool := canReadBytes INT64_SIZE.

Definition readInt8 : M Z :=
  value <- atOffset Buffer.readInt8 ;;
  advance INT8_SIZE ;;;
  ret value.

Definition readInt16 : M Z :=
  value <- atOffset Buffer.readInt16BE ;;
  advance INT16_SIZE ;;;
  ret value.

Definition readInt32 : M Z :=
  value <- atOffset Buffer.readInt32BE ;;
  advance INT32_SIZE ;;;
  ret value.

(** [readBigInt64BE(buffer, offset)]; the result is a BigInt.  The offset
    is a number, so the [isNaN] exit is not taken.  A byte between [first]
    and [last] that were [undefined] would make the sum NaN and
    [BigInt(NaN)] throw. *)
Definition readBigInt64BE (buf : Buffer.t) (offset : Z) : Z + Error :=
  match Buffer.get buf offset, Buffer.get buf (offset + 7) with
  | Some first, Some last =>
      match Buffer.get buf (offset + 1), Buffer.get buf (offset + 2),
            Buffer.get buf (offset + 3) with
      | Some b1, Some b2, Some b3 =>
          let val := JS.shl first 24 + b1 * 2 ^ 16 + b2 * 2 ^ 8 + b3 in
          match Buffer.get buf (offset + 4), Buffer.get buf (offset + 5),
                Buffer.get buf (offset + 6) with
          | Some b4, Some b5, Some b6 =>
              inl (Z.shiftl val 32
                   + (b4 * 2 ^ 24 + b5 * 2 ^ 16 + b6 * 2 ^ 8 + last))
          | _, _, _ => inr ERR_BIGINT_NAN
          end
      | _, _, _ => inr ERR_BIGINT_NAN
      end
  | _, _ => inr (PlainError offset)
  end.

Definition readInt64 : M Z :=
  value <- atOffset readBigInt64BE ;;
  advance INT64_SIZE ;;;
  ret value.

Definition readBoolean : M bool :=
  value <- readInt8 ;;
  ret (value =? 1).

Definition forward (size : Z) : M unit := advance size.

(** ** Zigzag and the variable-length integers *)

(** [(value >>> 1) ^ -(value & 1)]. *)
Definition decodeZigZag (value : Z) : Z :=
  JS.bxor (JS.ushr value 1) (JS.neg (JS.band value 1)).

(** The bytes at and after the cursor; its head is [buffer[offset]]
    (lemma [get_unread]). *)
Definition unread (d : Decoder) : list byte :=
  if offset d <? 0 then [] else skipn (Z.to_nat (offset d)) (buffer d).

(** [result += (currentByte & OTHER_BITS) << i]. *)
Definition accumulate (result : Z) (currentByte : JS.value) (i : Z) : Z :=
  JS.add result (JS.shl (JS.band_value currentByte OTHER_BITS) i).

(** [this.offset++] *)
Definition bump (d : Decoder) : Decoder :=
  {| buffer := buffer d; offset := offset d + 1 |}.

(** The do-while loop of [readVarInt], by recursion on the unread bytes
    (lemma [readVarInt_loop_equation] states it on [buffer[offset]]).
    Past the end [buffer[offset]] is [undefined], for which
    [currentByte >= MOST_SIGNIFICANT_BIT] is false: the loop exits.
    [result] is a Number and [+=] rounds it; the counter [i] and the
    offset stay far below [2^53] for any buffer and are added exactly. *)
Fixpoint readVarInt_loop (rest : list byte) (result i : Z) (d : Decoder)
  : Z * Decoder :=
  match rest with
  | [] => (accumulate result None i, bump d)
  | b :: rest' =>
      let currentByte := Some (Buffer.byteValue b) in
      let result' := accumulate result currentByte i in
      if JS.ge_value currentByte MOST_SIGNIFICANT_BIT
      then readVarInt_loop rest' result' (i + 7) (bump d)
      else (result', bump d)
  end.

Definition readVarInt : M Z :=
  fun d => let (result, d') := readVarInt_loop (unread d) 0 0 d in
           Return (decodeZigZag result) d'.

(** *** The 64-bit arithmetic collaborator ([utils/long]) *)

Module Long.

(** The operations the decoder calls on a [Long]. *)
Class Ops (L : Type) : Type := {
  fromInt : Z -> L;
  add : L -> L -> L;
  shiftLeft : L -> Z -> L;
  shiftRightUnsigned : L -> Z -> L;
  and : L -> L -> L;
  xor : L -> L -> L;
  negate : L -> L
}.

(** Two's-complement reading of the 64 low bits. *)
Definition asIntN64 (x : Z) : Z := (x + 2 ^ 63) mod 2 ^ 64 - 2 ^ 63.
Definition asUintN64 (x : Z) : Z := x mod 2 ^ 64.

(** Modelled from the spec: [utils/long], the class behind [Long], is not
    among the sources.  The specification describes it as signed 64-bit
    arithmetic supplying construction from an integer, unsigned right
    shift, bitwise and, xor, addition, left shift and two's-complement
    negation; each operation below is that operation on the 64-bit
    two's-complement value. *)
#[global] Instance Int64 : Ops Z := {
  fromInt v := asIntN64 v;
  add a b := asIntN64 (a + b);
  shiftLeft a n := asIntN64 (Z.shiftl a n);
  shiftRightUnsigned a n := asIntN64 (Z.shiftr (asUintN64 a) n);
  and a b := Z.land a b;
  xor a b := Z.lxor a b;
  negate a := asIntN64 (- a)
}.

End Long.

Section VarLong.

Context {L : Type} `{Long.Ops L}.

(** [longValue.shiftRightUnsigned(1).xor(longValue.and(Long.fromInt(1)).negate())] *)
Definition decodeZigZag64 (longValue : L) : L :=
  Long.xor (Long.shiftRightUnsigned longValue 1)
           (Long.negate (Long.and longValue (Long.fromInt 1))).

(** [result = result.add(Long.fromInt(currentByte & OTHER_BITS).shiftLeft(i))] *)
Definition accumulateLong (result : L) (currentByte : JS.value) (i : Z) : L :=
  Long.add result
    (Long.shiftLeft (Long.fromInt (JS.band_value currentByte OTHER_BITS)) i).

Fixpoint readVarLong_loop (rest : list byte) (result : L) (i : Z) (d : Decoder)
  : L * Decoder :=
  match rest with
  | [] => (accumulateLong result None i, bump d)
  | b :: rest' =>
      let currentByte := Some (Buffer.byteValue b) in
      let result' := accumulateLong result currentByte i in
      if JS.ge_value currentByte MOST_SIGNIFICANT_BIT
      then readVarLong_loop rest' result' (i + 7) (bump d)
      else (result', bump d)
  end.

Definition readVarLong : M L :=
  fun d => let (result, d') := readVarLong_loop (unread d) (Long.fromInt 0) 0 d in
           Return (decodeZigZag64 result) d'.

End VarLong.

(** ** Length-prefixed payloads *)

(** The text [stringBuffer.toString('utf8')] yields, kept as the bytes it
    is decoded from. *)
Record Utf8Text : Type := toString_utf8 { utf8_bytes : list byte }.

(** [this.buffer.slice(this.offset, this.offset + byteLength)] *)
Definition sliceAtOffset (byteLength : Z) : M Buffer.t :=
  fun d => Return (Buffer.slice (buffer d) (offset d)
                     (Some (offset d + byteLength))) d.

(** The body shared by the string readers, after the length prefix;
    [None] is [null]. *)
Definition stringOfLength (byteLength : Z) : M (option Utf8Text) :=
  if byteLength =? -1 then ret None
  else
    stringBuffer <- sliceAtOffset byteLength ;;
    let value := toString_utf8 stringBuffer in
    advance byteLength ;;;
    ret (Some value).

(** The body shared by the byte readers, after the length. *)
Definition bytesOfLength (byteLength : Z) : M (option Buffer.t) :=
  if byteLength =? -1 then ret None
  else
    stringBuffer <- sliceAtOffset byteLength ;;
    advance byteLength ;;;
    ret (Some stringBuffer).

Definition readString : M (option Utf8Text) :=
  byteLength <- readInt16 ;;
  stringOfLength byteLength.

Definition readVarIntString : M (option Utf8Text) :=
  byteLength <- readVarInt ;;
  stringOfLength byteLength.

(** [readBytes(byteLength = this.readInt32())]: [explicitLength = None] is
    a call without argument. *)
Definition readBytes (explicitLength : option Z) : M (option Buffer.t) :=
  byteLength <- match explicitLength with
                | Some n => ret n
                | None => readInt32
                end ;;
  bytesOfLength byteLength.

Definition readVarIntBytes : M (option Buffer.t) :=
  byteLength <- readVarInt ;;
  bytesOfLength byteLength.

Definition readAll : M Buffer.t :=
  fun d =>
    let result := Buffer.slice (buffer d) (offset d) None in
    Return result {| buffer := buffer d;
                     offset := offset d + Buffer.byteLength (buffer d) |}.

(** ** Arrays and sub-decoders *)

(** [for (let i = 0; i < length; i++) array.push(reader(this))], with
    [n] iterations left. *)
Fixpoint readElements {A} (reader : M A) (n : nat) (array : list A)
  : M (list A) :=
  match n with
  | O => ret array
  | S n' => x <- reader ;; readElements reader n' (array ++ [x])
  end.

Definition arrayOfLength {A} (reader : M A) (length : Z) : M (list A) :=
  if length =? -1 then ret []
  else readElements reader (Z.to_nat length) [].

Definition readArray {A} (reader : M A) : M (list A) :=
  length <- readInt32 ;;
  arrayOfLength reader length.

Definition readVarIntArray {A} (reader : M A) : M (list A) :=
  length <- readVarInt ;;
  arrayOfLength reader length.

(** [new Decoder(this.buffer.slice(this.offset, this.offset + size))] *)
Definition slice (size : Z) : M Decoder :=
  stringBuffer <- sliceAtOffset size ;;
  ret (newDecoder stringBuffer).

(** ** The zigzag encoder the decoder inverts *)

(** Modelled from the spec: the encoder ([protocol/encoder.js]) is not among
    the sources.  The specification gives its zigzag mapping of a signed
    32-bit [n] as [(n << 1) xor (n >> 31)], in 32-bit arithmetic. *)
Definition encodeZigZag (n : Z) : Z :=
  JS.bxor (JS.shl n 1) (JS.sar n 31).

(** Modelled from the spec: the 64-bit mapping [(n << 1) xor (n >> 63)] of
    the absent encoder, on the 64-bit two's-complement value. *)
Definition encodeZigZag64 (n : Z) : Z :=
  Long.asIntN64 (Z.lxor (Long.asIntN64 (Z.shiftl n 1)) (Z.shiftr n 63)).

(** ** Auxiliary notions used in the statements *)

(** The number of unread bytes, as [canReadBytes] computes it. *)
Definition remaining (d : Decoder) : Z :=
  Buffer.byteLength (buffer d) - offset d.

Definition isInt32 (n : Z) : Prop := - 2 ^ 31 <= n < 2 ^ 31.
Definition isInt64 (n : Z) : Prop := - 2 ^ 63 <= n < 2 ^ 63.

(** The four fixed-width reads. *)
Inductive FixedWidth : Type := Int8 | Int16 | Int32 | Int64.

Definition widthOf (k : FixedWidth) : Z :=
  match k with
  | Int8 => INT8_SIZE
  | Int16 => INT16_SIZE
  | Int32 => INT32_SIZE
  | Int64 => INT64_SIZE
  end.

Definition readFixed (k : FixedWidth) : M Z :=
  match k with
  | Int8 => readInt8
  | Int16 => readInt16
  | Int32 => readInt32
  | Int64 => readInt64
  end.

(** The state after a payload of declared length [n] was taken. *)
Definition advanced (d : Decoder) (n : Z) : Decoder :=
  {| buffer := buffer d; offset := offset d + n |}.

(** Whether a byte has the continuation bit set:
    [currentByte >= MOST_SIGNIFICANT_BIT]. *)
Definition continuation (b : byte) : bool :=
  JS.ge_value (Some (Buffer.byteValue b)) MOST_SIGNIFICANT_BIT.

(** The number of reads [buffer[offset++]] the varint loop makes on the
    unread bytes [rest]: up to and including the first byte without
    continuation bit, or one read past the end. *)
Fixpoint varintLength (rest : list byte) : nat :=
  match rest with
  | [] => 1
  | b :: rest' => if continuation b then S (varintLength rest') else 1
  end.

(** A complete varint encoding: every byte but the last has the
    continuation bit, the last has not. *)
Fixpoint isVarintSequence (bytes : list byte) : bool :=
  match bytes with
  | [] => false
  | [b] => negb (continuation b)
  | b :: bytes' => continuation b && isVarintSequence bytes'
  end.

(** The decoder over the same buffer followed by one [0x00] byte. *)
Definition padded (d : Decoder) : Decoder :=
  {| buffer := buffer d ++ [x00]; offset := offset d |}.

(** *** The accumulation the specification describes

    [result += (byte & 0x7f) << shift; shift += 7] over the bytes of an
    encoding, in signed 32-bit arithmetic: every addition wraps to 32 bits,
    and [shl] says what a 32-bit left shift is. *)
Definition wrap32 (x : Z) : Z := (x + 2 ^ 31) mod 2 ^ 32 - 2 ^ 31.

Fixpoint varint32 (shl : Z -> Z -> Z) (bytes : list byte) (result shift : Z)
  : Z :=
  match bytes with
  | [] => result
  | b :: bytes' =>
      varint32 shl bytes'
        (wrap32 (result + shl (Z.land (Buffer.byteValue b) 0x7f) shift))
        (shift + 7)
  end.

(** The shift as the specification words it: the shifted value truncated
    to 32 bits. *)
Definition shlTruncating (x shift : Z) : Z := wrap32 (Z.shiftl x shift).

(** The shift with its count reduced modulo 32 first. *)
Definition shlCountMod32 (x shift : Z) : Z :=
  wrap32 (Z.shiftl x (shift mod 32)).

(** *** The operations on the cursor

    The decoder's methods other than the array readers, whose element
    reader is code of the caller; [perform] runs one and drops the
    value. *)
Inductive Op : Type :=
| OpReadInt8
| OpReadInt16
| OpReadInt32
| OpReadInt64
| OpReadBoolean
| OpReadVarInt
| OpReadVarLong
| OpReadString
| OpReadVarIntString
| OpReadBytes (explicitLength : option Z)
| OpReadVarIntBytes
| OpReadAll
| OpSlice (size : Z)
| OpForward (size : Z).

Definition discard {A} (m : M A) : M unit := m ;;; ret tt.

Definition perform (op : Op) : M unit :=
  match op with
  | OpReadInt8 => discard readInt8
  | OpReadInt16 => discard readInt16
  | OpReadInt32 => discard readInt32
  | OpReadInt64 => discard readInt64
  | OpReadBoolean => discard readBoolean
  | OpReadVarInt => discard readVarInt
  | OpReadVarLong => discard (readVarLong (L := Z))
  | OpReadString => discard readString
  | OpReadVarIntString => discard readVarIntString
  | OpReadBytes explicitLength => discard (readBytes explicitLength)
  | OpReadVarIntBytes => discard readVarIntBytes
  | OpReadAll => discard readAll
  | OpSlice size => discard (slice size)
  | OpForward size => forward size
  end.

(** The fixed-width read an operation is, if any. *)
Definition fixedWidthOf (op : Op) : option FixedWidth :=
  match op with
  | OpReadInt8 | OpReadBoolean => Some Int8
  | OpReadInt16 => Some Int16
  | OpReadInt32 => Some Int32
  | OpReadInt64 => Some Int64
  | _ => None
  end.

(** Whether the size an operation moves the cursor by is acceptable: not
    negative for [forward], not below the null sentinel -1 for a payload
    length, be it passed by the caller or decoded from the prefix. *)
Definition notBelowNull (o : Outcome Z) : bool :=
  match o with
  | Return n _ => -1 <=? n
  | Throw _ _ => true
  end.

Definition declaredSizeOk (op : Op) (d : Decoder) : bool :=
  match op with
  | OpForward size => 0 <=? size
  | OpReadBytes (Some n) => -1 <=? n
  | OpReadBytes None => notBelowNull (readInt32 d)
  | OpReadString => notBelowNull (readInt16 d)
  | OpReadVarIntString | OpReadVarIntBytes => notBelowNull (readVarInt d)
  | _ => true
  end.

(** *** Notions used in the further properties *)

(** [static int32Size()] *)
Definition int32Size : Z := INT32_SIZE.

(** The value of a byte string read as a big-endian unsigned number. *)
Definition unsignedBE (bytes : list byte) : Z :=
  fold_left (fun acc b => acc * 256 + Buffer.byteValue b) bytes 0.

(** The value of the payload bits of a byte string read as base-128
    digits, least significant first. *)
Fixpoint le128 (bytes : list byte) : Z :=
  match bytes with
  | [] => 0
  | b :: bytes' => Z.land (Buffer.byteValue b) 0x7f + 128 * le128 bytes'
  end.

(** * Properties *)

(** ** Buffer indexing and slicing *)

Lemma byteValue_range (b : byte) : 0 <= Buffer.byteValue b < 256.
Proof.
  unfold Buffer.byteValue. pose proof (Byte.to_N_bounded b). lia.
Qed.

Lemma byteLength_nonneg (buf : Buffer.t) : 0 <= Buffer.byteLength buf.
Proof. unfold Buffer.byteLength. lia. Qed.

Lemma get_inside (buf : Buffer.t) (i : Z) :
  0 <= i < Buffer.byteLength buf -> exists v, Buffer.get buf i = Some v.
Proof.
  unfold Buffer.get, Buffer.byteLength. intros Hi.
  destruct (Z.ltb_spec i 0) as [Hneg | _]; [lia |].
  destruct (nth_error buf (Z.to_nat i)) as [b |] eqn:E.
  - eexists. reflexivity.
  - apply nth_error_None in E. lia.
Qed.

Lemma get_outside (buf : Buffer.t) (i : Z) :
  i < 0 \/ Buffer.byteLength buf <= i -> Buffer.get buf i = None.
Proof.
  unfold Buffer.get, Buffer.byteLength. intros Hi.
  destruct (Z.ltb_spec i 0) as [Hneg | Hpos]; [reflexivity |].
  assert (E : nth_error buf (Z.to_nat i) = None) by (apply nth_error_None; lia).
  rewrite E. reflexivity.
Qed.

(** A slice that starts inside the buffer and ends beyond it holds the
    bytes up to the end of the buffer only. *)
Lemma slice_beyond_end (buf : Buffer.t) (start stop : Z) :
  0 <= start <= Buffer.byteLength buf ->
  Buffer.byteLength buf < stop ->
  Buffer.slice buf start (Some stop) = skipn (Z.to_nat start) buf.
Proof.
  intros Hs He. unfold Buffer.slice, Buffer.adjustOffset.
  pose proof (byteLength_nonneg buf) as Hl.
  set (len := Buffer.byteLength buf) in *.
  assert (Hstop : (stop =? 0) = false) by (apply Z.eqb_neq; lia).
  assert (Hstop' : (stop <? 0) = false) by (apply Z.ltb_ge; lia).
  assert (Hstop'' : (stop <? len) = false) by (apply Z.ltb_ge; lia).
  rewrite Hstop, Hstop', Hstop''.
  assert (Hstart : (if start =? 0 then 0
                    else if start <? 0
                         then if 0 <? start + len then start + len else 0
                         else if start <? len then start else len) = start).
  { destruct (Z.eqb_spec start 0); [lia |].
    destruct (Z.ltb_spec start 0); [lia |].
    destruct (Z.ltb_spec start len); lia. }
  rewrite Hstart.
  apply firstn_all2. rewrite length_skipn.
  unfold len, Buffer.byteLength in *.
  destruct (Z.ltb_spec start (Z.of_nat (length buf))); lia.
Qed.

(** A slice without end, from a position inside the buffer. *)
Lemma slice_to_end (buf : Buffer.t) (start : Z) :
  0 <= start ->
  Buffer.slice buf start None = skipn (Z.to_nat start) buf.
Proof.
  intros Hs. unfold Buffer.slice, Buffer.adjustOffset.
  pose proof (byteLength_nonneg buf) as Hl.
  set (len := Buffer.byteLength buf) in *.
  destruct (Z.eqb_spec start 0) as [-> | Hne].
  - simpl. apply firstn_all2. unfold len, Buffer.byteLength in *.
    destruct (Z.ltb_spec 0 (Z.of_nat (length buf))); lia.
  - destruct (Z.ltb_spec start 0); [lia |].
    destruct (Z.ltb_spec start len) as [Hlt | Hge].
    + apply firstn_all2. rewrite length_skipn.
      unfold len, Buffer.byteLength in *.
      destruct (Z.ltb_spec start (Z.of_nat (length buf))); lia.
    + rewrite Z.ltb_irrefl. simpl.
      rewrite skipn_all2; [reflexivity |].
      unfold len, Buffer.byteLength in *. lia.
Qed.

Lemma unread_skipn (d : Decoder) :
  0 <= offset d -> unread d = skipn (Z.to_nat (offset d)) (buffer d).
Proof.
  intros H. unfold unread.
  destruct (Z.ltb_spec (offset d) 0); [lia | reflexivity].
Qed.

Lemma length_unread (d : Decoder) :
  0 <= offset d <= Buffer.byteLength (buffer d) ->
  Z.of_nat (length (unread d)) = remaining d.
Proof.
  intros H. rewrite unread_skipn by lia. rewrite length_skipn.
  unfold remaining, Buffer.byteLength in *. lia.
Qed.

(** [buffer[offset]] is the head of the unread bytes. *)
Lemma get_unread (d : Decoder) :
  Buffer.get (buffer d) (offset d)
  = option_map Buffer.byteValue (hd_error (unread d)).
Proof.
  unfold Buffer.get, unread.
  destruct (Z.ltb_spec (offset d) 0) as [Hneg | Hpos]; [reflexivity |].
  f_equal. generalize (Z.to_nat (offset d)) as n. generalize (buffer d) as l.
  induction l as [| b l IH]; intros [| n]; simpl; auto.
Qed.

(** After [offset++] the unread bytes are the tail. *)
Lemma unread_bump (d : Decoder) (b : byte) (rest : list byte) :
  unread d = b :: rest -> unread (bump d) = rest.
Proof.
  unfold unread, bump. simpl.
  destruct (Z.ltb_spec (offset d) 0) as [Hneg | Hpos]; [discriminate |].
  destruct (Z.ltb_spec (offset d + 1) 0) as [Hneg' | _]; [lia |].
  replace (Z.to_nat (offset d + 1)) with (S (Z.to_nat (offset d))) by lia.
  generalize (Z.to_nat (offset d)) as n. generalize (buffer d) as l.
  induction l as [| a l IH]; intros [| n] E; simpl in *;
    try discriminate.
  - congruence.
  - destruct l; [destruct n; discriminate | apply IH; exact E].
Qed.

(** ** Fixed-width reads *)

Ltac unfold_read :=
  unfold readFixed, readInt8, readInt16, readInt32, readInt64, bind, atOffset,
    advance, ret, Buffer.readInt8, Buffer.readInt16BE, Buffer.readInt32BE,
    readBigInt64BE, INT8_SIZE, INT16_SIZE, INT32_SIZE, INT64_SIZE in *.

(** With fewer bytes left than its width, a fixed-width read throws and
    leaves the decoder as it was. *)
Lemma readFixed_underrun (k : FixedWidth) (d : Decoder) :
  remaining d < widthOf k -> exists e, readFixed k d = Throw e d.
Proof.
  unfold remaining. intros H.
  destruct k; unfold widthOf in H; unfold_read.
  - rewrite (get_outside (buffer d) (offset d)) by lia. eauto.
  - rewrite (get_outside (buffer d) (offset d + 1)) by lia.
    destruct (Buffer.get (buffer d) (offset d)); eauto.
  - rewrite (get_outside (buffer d) (offset d + 3)) by lia.
    destruct (Buffer.get (buffer d) (offset d)); eauto.
  - rewrite (get_outside (buffer d) (offset d + 7)) by lia.
    destruct (Buffer.get (buffer d) (offset d)); eauto.
Qed.

(** With enough bytes left, a fixed-width read returns and advances the
    cursor by its width. *)
Lemma readFixed_enough (k : FixedWidth) (d : Decoder) :
  0 <= offset d -> widthOf k <= remaining d ->
  exists v, readFixed k d
            = Return v {| buffer := buffer d; offset := offset d + widthOf k |}.
Proof.
  unfold remaining. intros H0 H.
  assert (G : forall j, 0 <= j < widthOf k ->
                        exists v, Buffer.get (buffer d) (offset d + j) = Some v)
    by (intros j Hj; apply get_inside; lia).
  destruct k; unfold widthOf in *; unfold_read.
  - destruct (G 0) as [v0 E0]; [lia |]. rewrite Z.add_0_r in E0.
    rewrite E0. eauto.
  - destruct (G 0) as [v0 E0]; [lia |]. rewrite Z.add_0_r in E0.
    destruct (G 1) as [v1 E1]; [lia |].
    rewrite E0, E1. eauto.
  - destruct (G 0) as [v0 E0]; [lia |]. rewrite Z.add_0_r in E0.
    destruct (G 1) as [v1 E1]; [lia |].
    destruct (G 2) as [v2 E2]; [lia |].
    destruct (G 3) as [v3 E3]; [lia |].
    rewrite E0, E1, E2, E3. eauto.
  - destruct (G 0) as [v0 E0]; [lia |]. rewrite Z.add_0_r in E0.
    destruct (G 1) as [v1 E1]; [lia |].
    destruct (G 2) as [v2 E2]; [lia |].
    destruct (G 3) as [v3 E3]; [lia |].
    destruct (G 4) as [v4 E4]; [lia |].
    destruct (G 5) as [v5 E5]; [lia |].
    destruct (G 6) as [v6 E6]; [lia |].
    destruct (G 7) as [v7 E7]; [lia |].
    rewrite E0, E1, E2, E3, E4, E5, E6, E7. eauto.
Qed.

(** A fixed-width read that returned had its bytes inside the buffer. *)
Lemma readFixed_returned (k : FixedWidth) (d d1 : Decoder) (v : Z) :
  readFixed k d = Return v d1 ->
  d1 = {| buffer := buffer d; offset := offset d + widthOf k |}
  /\ 0 <= offset d /\ widthOf k <= remaining d.
Proof.
  intros E.
  destruct (Z.lt_ge_cases (remaining d) (widthOf k)) as [Hlt | Hge].
  { destruct (readFixed_underrun k d Hlt) as [e E']. congruence. }
  destruct (Z.lt_ge_cases (offset d) 0) as [Hneg | Hpos].
  { exfalso. destruct k; unfold_read;
      rewrite (get_outside (buffer d) (offset d)) in E by lia; discriminate. }
  destruct (readFixed_enough k d Hpos Hge) as [v' E'].
  split; [congruence | split; assumption].
Qed.

(** ** Payload reads past the end of the buffer *)

Lemma bytesOfLength_beyond_end (d : Decoder) (n : Z) :
  0 <= offset d <= Buffer.byteLength (buffer d) ->
  remaining d < n ->
  bytesOfLength n d = Return (Some (unread d)) (advanced d n).
Proof.
  unfold remaining. intros Hd Hn.
  pose proof (byteLength_nonneg (buffer d)).
  unfold bytesOfLength.
  destruct (Z.eqb_spec n (-1)) as [-> | _]; [lia |].
  unfold bind, sliceAtOffset, advance, ret, advanced. simpl.
  rewrite slice_beyond_end by lia.
  rewrite unread_skipn by lia. reflexivity.
Qed.

Lemma stringOfLength_beyond_end (d : Decoder) (n : Z) :
  0 <= offset d <= Buffer.byteLength (buffer d) ->
  remaining d < n ->
  stringOfLength n d
  = Return (Some (toString_utf8 (unread d))) (advanced d n).
Proof.
  unfold remaining. intros Hd Hn.
  pose proof (byteLength_nonneg (buffer d)).
  unfold stringOfLength.
  destruct (Z.eqb_spec n (-1)) as [-> | _]; [lia |].
  unfold bind, sliceAtOffset, advance, ret, advanced. simpl.
  rewrite slice_beyond_end by lia.
  rewrite unread_skipn by lia. reflexivity.
Qed.

(** ** Reads that need more bytes than remain *)

(** C1, as amended.  A fixed-width read ([readInt8/16/32/64]) that needs
    more bytes than remain throws and leaves the decoder unchanged, with no
    value returned.  A length-prefixed read ([readString], [readBytes]
    without argument) whose prefix was read and whose non-negative decoded
    length exceeds the bytes that remain after the prefix does not throw:
    it returns the bytes that remain, fewer than declared, and advances the
    offset by the declared length. *)
Theorem fixed_width_underrun_throws_payload_past_end_truncates (d : Decoder) :
  (forall k, remaining d < widthOf k -> exists e, readFixed k d = Throw e d)
  /\ (forall n d1,
        readInt16 d = Return n d1 -> 0 <= n -> remaining d1 < n ->
        readString d = Return (Some (toString_utf8 (unread d1))) (advanced d1 n)
        /\ Z.of_nat (length (unread d1)) < n)
  /\ (forall n d1,
        readInt32 d = Return n d1 -> 0 <= n -> remaining d1 < n ->
        readBytes None d = Return (Some (unread d1)) (advanced d1 n)
        /\ Z.of_nat (length (unread d1)) < n).
Proof.
  split; [intros k; apply readFixed_underrun |].
  split; intros n d1 E Hn Hrem.
  - destruct (readFixed_returned Int16 d d1 n E) as (Hd1 & H0 & Hw).
    assert (Hin : 0 <= offset d1 <= Buffer.byteLength (buffer d1)).
    { subst d1. unfold remaining, widthOf, INT16_SIZE in *. simpl. lia. }
    split.
    + unfold readString, bind. rewrite E.
      apply stringOfLength_beyond_end; assumption.
    + rewrite length_unread; assumption.
  - destruct (readFixed_returned Int32 d d1 n E) as (Hd1 & H0 & Hw).
    assert (Hin : 0 <= offset d1 <= Buffer.byteLength (buffer d1)).
    { subst d1. unfold remaining, widthOf, INT32_SIZE in *. simpl. lia. }
    split.
    + unfold readBytes, bind. rewrite E.
      apply bytesOfLength_beyond_end; assumption.
    + rewrite length_unread; assumption.
Qed.

(** The amended C1 at concrete buffers: [readInt32] with two bytes left
    throws; [readString] with declared length 5 and two bytes of payload
    returns those two bytes. *)
Lemma fixed_width_underrun_throws_payload_past_end_truncates_witness :
  (exists e, readInt32 {| buffer := [x00; x05]; offset := 0 |}
             = Throw e {| buffer := [x00; x05]; offset := 0 |})
  /\ readString {| buffer := [x00; x05; x61; x62]; offset := 0 |}
     = Return (Some (toString_utf8 [x61; x62]))
         {| buffer := [x00; x05; x61; x62]; offset := 7 |}.
Proof.
  split.
  - apply (proj1 (fixed_width_underrun_throws_payload_past_end_truncates
                    {| buffer := [x00; x05]; offset := 0 |}) Int32).
    vm_compute. reflexivity.
  - apply (proj1 (proj2 (fixed_width_underrun_throws_payload_past_end_truncates
                    {| buffer := [x00; x05; x61; x62]; offset := 0 |}))
             5 {| buffer := [x00; x05; x61; x62]; offset := 2 |}).
    + vm_compute. reflexivity.
    + lia.
    + vm_compute. reflexivity.
Defined.

(** C1 as stated fails: the length prefix of [readString] decodes to 5,
    two bytes remain after it, and the call does not throw but returns the
    two-byte text, with the offset at 7 in a buffer of 4 bytes. *)
Lemma readString_past_end_does_not_throw :
  readInt16 {| buffer := [x00; x05; x61; x62]; offset := 0 |}
  = Return 5 {| buffer := [x00; x05; x61; x62]; offset := 2 |}
  /\ remaining {| buffer := [x00; x05; x61; x62]; offset := 2 |} < 5
  /\ throws (readString {| buffer := [x00; x05; x61; x62]; offset := 0 |})
     = false
  /\ readString {| buffer := [x00; x05; x61; x62]; offset := 0 |}
     = Return (Some (toString_utf8 [x61; x62]))
         {| buffer := [x00; x05; x61; x62]; offset := 7 |}.
Proof. repeat split. Qed.

(** ** Slices larger than the remaining bytes *)

(** C2, as amended.  With the cursor inside the buffer and [size] greater
    than the number of remaining bytes, neither [slice(size)] nor
    [readBytes(size)] throws: [slice] returns a sub-decoder over the
    remaining bytes only and leaves the offset unchanged, [readBytes]
    returns the remaining bytes only and advances the offset by [size]; in
    both the result is shorter than [size]. *)
Theorem slice_and_readBytes_past_end_truncate (d : Decoder) (size : Z) :
  0 <= offset d <= Buffer.byteLength (buffer d) ->
  remaining d < size ->
  slice size d = Return (newDecoder (unread d)) d
  /\ readBytes (Some size) d = Return (Some (unread d)) (advanced d size)
  /\ Z.of_nat (length (unread d)) < size.
Proof.
  intros Hd Hsize. split; [| split].
  - unfold slice, bind, sliceAtOffset, ret.
    unfold remaining in Hsize.
    rewrite slice_beyond_end by lia.
    rewrite unread_skipn by lia. reflexivity.
  - unfold readBytes, bind, ret.
    apply bytesOfLength_beyond_end; assumption.
  - rewrite length_unread; assumption.
Qed.

Lemma slice_and_readBytes_past_end_truncate_witness :
  slice 5 {| buffer := [x01; x02; x03]; offset := 1 |}
  = Return (newDecoder [x02; x03]) {| buffer := [x01; x02; x03]; offset := 1 |}
  /\ readBytes (Some 5) {| buffer := [x01; x02; x03]; offset := 1 |}
     = Return (Some [x02; x03]) {| buffer := [x01; x02; x03]; offset := 6 |}
  /\ Z.of_nat (length [x02; x03]) < 5.
Proof.
  apply (slice_and_readBytes_past_end_truncate
           {| buffer := [x01; x02; x03]; offset := 1 |} 5).
  - vm_compute. split; discriminate.
  - vm_compute. reflexivity.
Defined.

(** C2 as stated fails: with two bytes remaining, [slice(5)] and
    [readBytes(5)] both return instead of throwing. *)
Lemma slice_past_end_does_not_throw :
  remaining {| buffer := [x01; x02; x03]; offset := 1 |} < 5
  /\ throws (slice 5 {| buffer := [x01; x02; x03]; offset := 1 |}) = false
  /\ throws (readBytes (Some 5) {| buffer := [x01; x02; x03]; offset := 1 |})
     = false
  /\ slice 5 {| buffer := [x01; x02; x03]; offset := 1 |}
     = Return (newDecoder [x02; x03])
         {| buffer := [x01; x02; x03]; offset := 1 |}
  /\ readBytes (Some 5) {| buffer := [x01; x02; x03]; offset := 1 |}
     = Return (Some [x02; x03]) {| buffer := [x01; x02; x03]; offset := 6 |}.
Proof. repeat split. Qed.

(** ** Null and empty sentinels *)

(** C7.  When the two bytes at the cursor are [0xFF 0xFF], the 16-bit prefix
    decodes to -1 and [readString] returns [null] ([None], not the empty
    text), with the offset advanced by exactly 2. *)
Theorem readString_null_sentinel (d : Decoder) :
  Buffer.get (buffer d) (offset d) = Some 0xFF ->
  Buffer.get (buffer d) (offset d + 1) = Some 0xFF ->
  readInt16 d = Return (-1) (advanced d 2)
  /\ readString d = Return None (advanced d 2)
  /\ readString d <> Return (Some (toString_utf8 [])) (advanced d 2).
Proof.
  intros E0 E1.
  assert (E : readInt16 d = Return (-1) (advanced d 2)).
  { unfold_read. rewrite E0, E1. reflexivity. }
  split; [exact E |].
  assert (E' : readString d = Return None (advanced d 2)).
  { unfold readString, bind. rewrite E. reflexivity. }
  split; [exact E' |].
  rewrite E'. discriminate.
Qed.

Lemma readString_null_sentinel_witness :
  readString {| buffer := [x07; xff; xff; x61]; offset := 1 |}
  = Return None {| buffer := [x07; xff; xff; x61]; offset := 3 |}.
Proof.
  apply (proj1 (proj2 (readString_null_sentinel
           {| buffer := [x07; xff; xff; x61]; offset := 1 |}
           eq_refl eq_refl))).
Defined.

(** C8.  When the 32-bit prefix at the cursor decodes to -1, [readArray]
    returns the empty sequence, whatever the element reader, and
    [readBytes] without argument returns [null] ([None]) and not an empty
    byte sequence; both leave the cursor just after the prefix. *)
Theorem readArray_empty_readBytes_null {A : Type} (reader : M A)
    (d d1 : Decoder) :
  readInt32 d = Return (-1) d1 ->
  readArray reader d = Return [] d1
  /\ readBytes None d = Return None d1
  /\ readBytes None d <> Return (Some []) d1.
Proof.
  intros E.
  assert (Ea : readArray reader d = Return [] d1).
  { unfold readArray, bind. rewrite E. reflexivity. }
  assert (Eb : readBytes None d = Return None d1).
  { unfold readBytes, bind. rewrite E. reflexivity. }
  repeat split; try assumption.
  rewrite Eb. discriminate.
Qed.

Lemma readArray_empty_readBytes_null_witness :
  readArray readInt8 {| buffer := [xff; xff; xff; xff; x01]; offset := 0 |}
  = Return [] {| buffer := [xff; xff; xff; xff; x01]; offset := 4 |}
  /\ readBytes None {| buffer := [xff; xff; xff; xff; x01]; offset := 0 |}
     = Return None {| buffer := [xff; xff; xff; xff; x01]; offset := 4 |}.
Proof.
  destruct (readArray_empty_readBytes_null readInt8
              {| buffer := [xff; xff; xff; xff; x01]; offset := 0 |}
              {| buffer := [xff; xff; xff; xff; x01]; offset := 4 |}
              eq_refl) as (Ha & Hb & _).
  split; assumption.
Defined.

(** ** readAll *)

(** A slice without end, from a negative position: the position is counted
    back from the end of the buffer, and not beyond its start. *)
Lemma slice_from_end (buf : Buffer.t) (start : Z) :
  start < 0 ->
  Buffer.slice buf start None
  = skipn (Z.to_nat (Buffer.byteLength buf + start)) buf.
Proof.
  intros Hs. unfold Buffer.slice, Buffer.adjustOffset.
  pose proof (byteLength_nonneg buf) as Hl.
  set (len := Buffer.byteLength buf) in *.
  destruct (Z.eqb_spec start 0); [lia |].
  destruct (Z.ltb_spec start 0); [| lia].
  replace (len + start) with (start + len) by lia.
  destruct (Z.ltb_spec 0 (start + len)) as [Hin | Hout].
  - destruct (Z.ltb_spec (start + len) len); [| lia].
    apply firstn_all2. rewrite length_skipn.
    unfold len, Buffer.byteLength in *. lia.
  - replace (Z.to_nat (start + len)) with 0%nat by lia.
    change (Z.to_nat 0) with 0%nat. cbn [skipn].
    apply firstn_all2. unfold len, Buffer.byteLength in *.
    destruct (Z.ltb_spec 0 (Z.of_nat (length buf))); lia.
Qed.

(** C9, as amended.  In every decoder state [readAll] returns without
    throwing and advances the offset by the length of the whole buffer, not
    by the number of bytes it returns: the new offset is the old one plus
    [length(buffer)], beyond the end of the buffer whenever the old offset
    was positive.  With [0 <= offset] the bytes returned are those from the
    offset to the end of the buffer; with a negative offset they are only
    the last [min(-offset, length(buffer))] bytes, the position being
    counted back from the end of the buffer. *)
Theorem readAll_advances_by_buffer_length (d : Decoder) :
  (exists result,
      readAll d = Return result (advanced d (Buffer.byteLength (buffer d)))
      /\ (0 <= offset d -> result = skipn (Z.to_nat (offset d)) (buffer d))
      /\ (offset d < 0 ->
          result
          = skipn (Z.to_nat (Buffer.byteLength (buffer d) + offset d))
              (buffer d)
          /\ Buffer.byteLength result
             = Z.min (- offset d) (Buffer.byteLength (buffer d))))
  /\ offset (stateOf (readAll d)) = offset d + Buffer.byteLength (buffer d)
  /\ (0 < offset d ->
      Buffer.byteLength (buffer d) < offset (stateOf (readAll d))).
Proof.
  split; [| split].
  - exists (Buffer.slice (buffer d) (offset d) None).
    split; [reflexivity |]. split.
    + intros H0. apply slice_to_end. exact H0.
    + intros Hneg. rewrite slice_from_end by exact Hneg.
      split; [reflexivity |].
      unfold Buffer.byteLength. rewrite length_skipn. lia.
  - reflexivity.
  - intros Hpos. simpl. lia.
Qed.

Lemma readAll_advances_by_buffer_length_witness :
  (exists result,
      readAll {| buffer := [x01; x02; x03]; offset := 1 |}
      = Return result {| buffer := [x01; x02; x03]; offset := 4 |}
      /\ result = [x02; x03])
  /\ 3 < offset (stateOf (readAll {| buffer := [x01; x02; x03]; offset := 1 |}))
  /\ (exists result,
        readAll {| buffer := [x01; x02; x03]; offset := -2 |}
        = Return result {| buffer := [x01; x02; x03]; offset := 1 |}
        /\ result = [x02; x03]).
Proof.
  destruct (readAll_advances_by_buffer_length
              {| buffer := [x01; x02; x03]; offset := 1 |})
    as ((result & Hread & Hbytes & _) & _ & Hpast).
  destruct (readAll_advances_by_buffer_length
              {| buffer := [x01; x02; x03]; offset := -2 |})
    as ((result' & Hread' & _ & Hbytes') & _ & _).
  split; [| split].
  - exists result. split; [exact Hread |].
    apply Hbytes. vm_compute. discriminate.
  - apply Hpast. vm_compute. reflexivity.
  - exists result'. split; [exact Hread' |].
    apply Hbytes'. vm_compute. reflexivity.
Defined.

(** C9 as stated fails at a negative offset, which the bytes on the wire
    alone can produce.  [readString] on the prefix [0xFF 0xFD] (-3) leaves
    the offset at -1; [readAll] there returns only the last byte of the
    buffer, not all the bytes at the positions from the offset on, which
    are the three bytes of the buffer. *)
Lemma readAll_at_negative_offset_returns_tail :
  stateOf (readString {| buffer := [xff; xfd; x03]; offset := 0 |})
  = {| buffer := [xff; xfd; x03]; offset := -1 |}
  /\ readAll {| buffer := [xff; xfd; x03]; offset := -1 |}
     = Return [x03] {| buffer := [xff; xfd; x03]; offset := 2 |}
  /\ skipn (Z.to_nat (-1)) [xff; xfd; x03] = [xff; xfd; x03]
  /\ [x03] <> skipn (Z.to_nat (-1)) [xff; xfd; x03].
Proof. repeat split. discriminate. Qed.

(** ** Zigzag round trip *)

Lemma ToInt32_range (x : Z) : isInt32 (JS.ToInt32 x).
Proof.
  unfold isInt32, JS.ToInt32.
  change (2 ^ 31) with 2147483648. change (2 ^ 32) with 4294967296.
  pose proof (Z.mod_pos_bound (x + 2147483648) 4294967296). lia.
Qed.

Lemma ToInt32_id (x : Z) : isInt32 x -> JS.ToInt32 x = x.
Proof.
  unfold isInt32, JS.ToInt32.
  change (2 ^ 31) with 2147483648. change (2 ^ 32) with 4294967296.
  intros H. rewrite Z.mod_small; lia.
Qed.

Lemma land_1 (x : Z) : Z.land x 1 = x mod 2.
Proof. change 1 with (Z.ones 1) at 1. rewrite Z.land_ones by lia. reflexivity. Qed.

Lemma lxor_m1 (x : Z) : Z.lxor x (-1) = - x - 1.
Proof. rewrite Z.lxor_m1_r. unfold Z.lnot. lia. Qed.

(** The 32-bit zigzag decoder inverts the encoder on every 32-bit value. *)
Lemma decodeZigZag_encodeZigZag (n : Z) : isInt32 n -> decodeZigZag (encodeZigZag n) = n.
Proof.
  intros Hn. unfold decodeZigZag, encodeZigZag, JS.bxor, JS.shl, JS.sar, JS.ushr, JS.band, JS.neg.
  change (JS.shiftCount 1) with 1. change (JS.shiftCount 31) with 31.
  rewrite (ToInt32_id n Hn).
  rewrite (ToInt32_id (JS.ToInt32 _) (ToInt32_range _)).
  rewrite Z.shiftl_mul_pow2, !Z.shiftr_div_pow2 by lia.
  change (JS.ToInt32 1) with 1.
  rewrite land_1.
  unfold isInt32 in Hn.
  change (2 ^ 31) with 2147483648 in *. change (2^1) with 2.
  destruct (Z.lt_ge_cases n 0) as [Hneg | Hpos].
  - replace (n / 2147483648) with (-1) by (Z.div_mod_to_equations; lia).
    change (JS.ToInt32 (-1)) with (-1).
    rewrite lxor_m1.
    set (t := JS.ToInt32 (n * 2)).
    assert (Ht : t = n * 2 \/ t = n * 2 + 4294967296).
    { subst t. unfold JS.ToInt32. change (2 ^ 31) with 2147483648. change (2 ^ 32) with 4294967296.
      Z.div_mod_to_equations. lia. }
    pose proof (ToInt32_range (n * 2)) as Hr. fold t in Hr. unfold isInt32 in Hr.
    change (2 ^ 31) with 2147483648 in Hr.
    rewrite (ToInt32_id (- t - 1)) by (unfold isInt32; change (2 ^ 31) with 2147483648; lia).
    replace ((- t - 1) mod 2) with 1 by (Z.div_mod_to_equations; lia).
    change (JS.ToInt32 (-(1))) with (-1).
    replace (JS.ToUint32 (- t - 1) / 2) with (- n - 1).
    2:{ unfold JS.ToUint32. change (2 ^ 32) with 4294967296. Z.div_mod_to_equations. lia. }
    rewrite ToInt32_id by (unfold isInt32; change (2 ^ 31) with 2147483648; lia).
    rewrite lxor_m1. lia.
  - replace (n / 2147483648) with 0 by (Z.div_mod_to_equations; lia).
    change (JS.ToInt32 0) with 0. rewrite Z.lxor_0_r.
    set (t := JS.ToInt32 (n * 2)).
    assert (Ht : t = n * 2 \/ t = n * 2 - 4294967296).
    { subst t. unfold JS.ToInt32. change (2 ^ 31) with 2147483648. change (2 ^ 32) with 4294967296.
      Z.div_mod_to_equations. lia. }
    rewrite (ToInt32_id t) by (apply ToInt32_range).
    replace (t mod 2) with 0 by (Z.div_mod_to_equations; lia).
    change (JS.ToInt32 (- 0)) with 0. rewrite Z.lxor_0_r.
    replace (JS.ToUint32 t / 2) with n.
    2:{ unfold JS.ToUint32. change (2 ^ 32) with 4294967296. Z.div_mod_to_equations. lia. }
    apply ToInt32_id. unfold isInt32. change (2 ^ 31) with 2147483648. lia.
Qed.

Lemma asIntN64_range (x : Z) : isInt64 (Long.asIntN64 x).
Proof.
  unfold isInt64, Long.asIntN64.
  change (2 ^ 63) with 9223372036854775808.
  change (2 ^ 64) with 18446744073709551616.
  pose proof (Z.mod_pos_bound (x + 9223372036854775808) 18446744073709551616).
  lia.
Qed.

Lemma asIntN64_id (x : Z) : isInt64 x -> Long.asIntN64 x = x.
Proof.
  unfold isInt64, Long.asIntN64.
  change (2 ^ 63) with 9223372036854775808.
  change (2 ^ 64) with 18446744073709551616.
  intros H. rewrite Z.mod_small; lia.
Qed.

(** The 64-bit zigzag decoder inverts the encoder on every 64-bit value. *)
Lemma decodeZigZag64_encodeZigZag64 (n : Z) : isInt64 n -> decodeZigZag64 (encodeZigZag64 n) = n.
Proof.
  intros Hn. unfold decodeZigZag64, encodeZigZag64. cbn [Long.xor Long.shiftRightUnsigned Long.negate Long.and Long.fromInt Long.Int64].
  change (Long.asIntN64 1) with 1.
  rewrite Z.shiftl_mul_pow2, !Z.shiftr_div_pow2 by lia.
  rewrite land_1.
  unfold isInt64 in Hn.
  change (2 ^ 63) with 9223372036854775808 in *. change (2^1) with 2.
  set (t := Long.asIntN64 (n * 2)).
  pose proof (asIntN64_range (n * 2)) as Hr. fold t in Hr. unfold isInt64 in Hr.
  change (2 ^ 63) with 9223372036854775808 in Hr.
  destruct (Z.lt_ge_cases n 0) as [Hneg | Hpos].
  - replace (n / 9223372036854775808) with (-1) by (Z.div_mod_to_equations; lia).
    rewrite lxor_m1.
    assert (Ht : t = n * 2 \/ t = n * 2 + 18446744073709551616).
    { subst t. unfold Long.asIntN64. change (2 ^ 63) with 9223372036854775808.
      change (2 ^ 64) with 18446744073709551616.
      Z.div_mod_to_equations. lia. }
    rewrite (asIntN64_id (- t - 1)) by (unfold isInt64; change (2 ^ 63) with 9223372036854775808; lia).
    replace ((- t - 1) mod 2) with 1 by (Z.div_mod_to_equations; lia).
    change (Long.asIntN64 (-(1))) with (-1).
    replace (Long.asUintN64 (- t - 1) / 2) with (- n - 1).
    2:{ unfold Long.asUintN64. change (2 ^ 64) with 18446744073709551616. Z.div_mod_to_equations. lia. }
    rewrite asIntN64_id by (unfold isInt64; change (2 ^ 63) with 9223372036854775808; lia).
    rewrite lxor_m1. lia.
  - replace (n / 9223372036854775808) with 0 by (Z.div_mod_to_equations; lia).
    rewrite Z.lxor_0_r.
    assert (Ht : t = n * 2 \/ t = n * 2 - 18446744073709551616).
    { subst t. unfold Long.asIntN64. change (2 ^ 63) with 9223372036854775808.
      change (2 ^ 64) with 18446744073709551616.
      Z.div_mod_to_equations. lia. }
    rewrite (asIntN64_id t) by (apply asIntN64_range).
    replace (t mod 2) with 0 by (Z.div_mod_to_equations; lia).
    change (Long.asIntN64 (- 0)) with 0. rewrite Z.lxor_0_r.
    replace (Long.asUintN64 t / 2) with n.
    2:{ unfold Long.asUintN64. change (2 ^ 64) with 18446744073709551616. Z.div_mod_to_equations. lia. }
    apply asIntN64_id. unfold isInt64. change (2 ^ 63) with 9223372036854775808. lia.
Qed.

(** C4.  For every signed 32-bit [n], [decodeZigZag] applied to the zigzag
    encoding [(n << 1) xor (n >> 31)] of [n] is [n]; for every signed 64-bit
    [m], [decodeZigZag64] applied to [(m << 1) xor (m >> 63)] is [m]. *)
Theorem zigzag_round_trip (n m : Z) :
  isInt32 n -> isInt64 m ->
  decodeZigZag (encodeZigZag n) = n
  /\ decodeZigZag64 (encodeZigZag64 m) = m.
Proof.
  intros Hn Hm. split.
  - apply decodeZigZag_encodeZigZag; assumption.
  - apply decodeZigZag64_encodeZigZag64; assumption.
Qed.

Lemma zigzag_round_trip_witness :
  decodeZigZag (encodeZigZag (-2147483648)) = -2147483648
  /\ decodeZigZag64 (encodeZigZag64 9223372036854775807)
     = 9223372036854775807.
Proof.
  apply (zigzag_round_trip (-2147483648) 9223372036854775807).
  - unfold isInt32. vm_compute. split; [discriminate | reflexivity].
  - unfold isInt64. vm_compute. split; [discriminate | reflexivity].
Defined.

(** ** The varint loop *)

Lemma continuation_spec (b : byte) :
  continuation b = (128 <=? Buffer.byteValue b).
Proof. reflexivity. Qed.

Lemma readVarInt_loop_cons (b : byte) (rest : list byte) (result i : Z)
    (d : Decoder) :
  readVarInt_loop (b :: rest) result i d
  = if continuation b
    then readVarInt_loop rest
           (accumulate result (Some (Buffer.byteValue b)) i) (i + 7) (bump d)
    else (accumulate result (Some (Buffer.byteValue b)) i, bump d).
Proof. reflexivity. Qed.

Lemma varintLength_cons (b : byte) (rest : list byte) :
  varintLength (b :: rest)
  = if continuation b then S (varintLength rest) else 1%nat.
Proof. reflexivity. Qed.

Lemma advanced_bump (d : Decoder) (n : nat) :
  advanced (bump d) (Z.of_nat n) = advanced d (Z.of_nat (S n)).
Proof. unfold advanced, bump. simpl. f_equal. lia. Qed.

(** The loop as the source writes it: read [buffer[offset++]], accumulate,
    and go round again while the byte has the continuation bit. *)
Lemma readVarInt_loop_equation (d : Decoder) (result i : Z) :
  readVarInt_loop (unread d) result i d
  = let currentByte := Buffer.get (buffer d) (offset d) in
    let result' := accumulate result currentByte i in
    if JS.ge_value currentByte MOST_SIGNIFICANT_BIT
    then readVarInt_loop (unread (bump d)) result' (i + 7) (bump d)
    else (result', bump d).
Proof.
  rewrite get_unread. destruct (unread d) as [| b rest] eqn:U.
  - reflexivity.
  - rewrite (unread_bump d b rest U). reflexivity.
Qed.

Lemma readVarInt_loop_state (rest : list byte) :
  forall result i d,
    snd (readVarInt_loop rest result i d)
    = advanced d (Z.of_nat (varintLength rest)).
Proof.
  induction rest as [| b rest IH]; intros result i d.
  - reflexivity.
  - rewrite readVarInt_loop_cons, varintLength_cons.
    destruct (continuation b).
    + rewrite IH. apply advanced_bump.
    + reflexivity.
Qed.

Lemma readVarInt_loop_value (rest : list byte) :
  forall result i d d',
    fst (readVarInt_loop rest result i d)
    = fst (readVarInt_loop rest result i d').
Proof.
  induction rest as [| b rest IH]; intros result i d d'.
  - reflexivity.
  - rewrite !readVarInt_loop_cons.
    destruct (continuation b); [apply IH | reflexivity].
Qed.

(** Reading past the end accumulates what a [0x00] byte there would. *)
Lemma readVarInt_loop_padded (rest : list byte) :
  forall result i d,
    forallb continuation rest = true ->
    fst (readVarInt_loop (rest ++ [x00]) result i d)
    = fst (readVarInt_loop rest result i d).
Proof.
  induction rest as [| b rest IH]; intros result i d Hall.
  - reflexivity.
  - simpl in Hall. apply andb_prop in Hall as [Hb Hrest].
    rewrite <- app_comm_cons, !readVarInt_loop_cons, Hb.
    apply IH. exact Hrest.
Qed.

Lemma varintLength_all_continue (rest : list byte) :
  forallb continuation rest = true ->
  varintLength rest = S (length rest)
  /\ varintLength (rest ++ [x00]) = S (length rest).
Proof.
  induction rest as [| b rest IH]; intros Hall.
  - split; reflexivity.
  - simpl in Hall. apply andb_prop in Hall as [Hb Hrest].
    destruct (IH Hrest) as [IH1 IH2].
    rewrite <- app_comm_cons, !varintLength_cons, Hb, IH1, IH2.
    split; reflexivity.
Qed.

Lemma unread_padded (d : Decoder) :
  0 <= offset d <= Buffer.byteLength (buffer d) ->
  unread (padded d) = unread d ++ [x00].
Proof.
  intros H. rewrite !unread_skipn by (simpl; lia).
  unfold padded. simpl. unfold Buffer.byteLength in H.
  rewrite skipn_app.
  replace (Z.to_nat (offset d) - length (buffer d))%nat with 0%nat by lia.
  reflexivity.
Qed.

Lemma readVarInt_unfold (d : Decoder) :
  readVarInt d
  = Return (decodeZigZag (fst (readVarInt_loop (unread d) 0 0 d)))
      (advanced d (Z.of_nat (varintLength (unread d)))).
Proof.
  unfold readVarInt.
  rewrite <- (readVarInt_loop_state (unread d) 0 0 d).
  destruct (readVarInt_loop (unread d) 0 0 d). reflexivity.
Qed.

Section VarLongLoop.

Context {L : Type} `{Long.Ops L}.

Lemma readVarLong_loop_cons (b : byte) (rest : list byte) (result : L)
    (i : Z) (d : Decoder) :
  readVarLong_loop (b :: rest) result i d
  = if continuation b
    then readVarLong_loop rest
           (accumulateLong result (Some (Buffer.byteValue b)) i) (i + 7)
           (bump d)
    else (accumulateLong result (Some (Buffer.byteValue b)) i, bump d).
Proof. reflexivity. Qed.

Lemma readVarLong_loop_state (rest : list byte) :
  forall (result : L) i d,
    snd (readVarLong_loop rest result i d)
    = advanced d (Z.of_nat (varintLength rest)).
Proof.
  induction rest as [| b rest IH]; intros result i d.
  - reflexivity.
  - rewrite readVarLong_loop_cons, varintLength_cons.
    destruct (continuation b).
    + rewrite IH. apply advanced_bump.
    + reflexivity.
Qed.

Lemma readVarLong_loop_value (rest : list byte) :
  forall (result : L) i d d',
    fst (readVarLong_loop rest result i d)
    = fst (readVarLong_loop rest result i d').
Proof.
  induction rest as [| b rest IH]; intros result i d d'.
  - reflexivity.
  - rewrite !readVarLong_loop_cons.
    destruct (continuation b); [apply IH | reflexivity].
Qed.

Lemma readVarLong_loop_padded (rest : list byte) :
  forall (result : L) i d,
    forallb continuation rest = true ->
    fst (readVarLong_loop (rest ++ [x00]) result i d)
    = fst (readVarLong_loop rest result i d).
Proof.
  induction rest as [| b rest IH]; intros result i d Hall.
  - reflexivity.
  - simpl in Hall. apply andb_prop in Hall as [Hb Hrest].
    rewrite <- app_comm_cons, !readVarLong_loop_cons, Hb.
    apply IH. exact Hrest.
Qed.

Lemma readVarLong_unfold (d : Decoder) :
  readVarLong d
  = Return (decodeZigZag64
              (fst (readVarLong_loop (unread d) (Long.fromInt 0) 0 d)))
      (advanced d (Z.of_nat (varintLength (unread d)))).
Proof.
  unfold readVarLong.
  rewrite <- (readVarLong_loop_state (unread d) (Long.fromInt 0) 0 d).
  destruct (readVarLong_loop (unread d) (Long.fromInt 0) 0 d). reflexivity.
Qed.

(** C10.  With the cursor inside the buffer and every unread byte carrying
    the continuation bit (no unread byte at all included), the encoding
    runs past the end of the buffer.  [readVarInt] and [readVarLong] then
    do not throw: each returns the integer it would return if a [0x00]
    byte, a terminating byte without payload bits, followed the buffer,
    and leaves the offset at [length(buffer) + 1], past the end. *)
Theorem varint_past_end_returns (d : Decoder) :
  0 <= offset d <= Buffer.byteLength (buffer d) ->
  forallb continuation (unread d) = true ->
  exists (v : Z) (w : L),
    readVarInt d = Return v (advanced d (remaining d + 1))
    /\ readVarInt (padded d) = Return v (advanced (padded d) (remaining d + 1))
    /\ readVarLong d = Return w (advanced d (remaining d + 1))
    /\ readVarLong (padded d)
       = Return w (advanced (padded d) (remaining d + 1))
    /\ offset (advanced d (remaining d + 1)) = Buffer.byteLength (buffer d) + 1.
Proof.
  intros Hd Hall.
  destruct (varintLength_all_continue (unread d) Hall) as [Hlen Hlen'].
  pose proof (length_unread d Hd) as Hrem.
  pose proof (unread_padded d Hd) as Hpad.
  exists (decodeZigZag (fst (readVarInt_loop (unread d) 0 0 d))),
    (decodeZigZag64 (fst (readVarLong_loop (unread d) (Long.fromInt 0) 0 d))).
  repeat split.
  - rewrite readVarInt_unfold, Hlen. do 2 f_equal. lia.
  - rewrite readVarInt_unfold, Hpad, Hlen'.
    rewrite readVarInt_loop_padded by assumption.
    rewrite (readVarInt_loop_value _ _ _ (padded d) d).
    do 2 f_equal. lia.
  - rewrite readVarLong_unfold, Hlen. do 2 f_equal. lia.
  - rewrite readVarLong_unfold, Hpad, Hlen'.
    rewrite readVarLong_loop_padded by assumption.
    rewrite (readVarLong_loop_value _ _ _ (padded d) d).
    do 2 f_equal. lia.
  - unfold advanced, remaining. simpl. lia.
Qed.

End VarLongLoop.

Lemma varint_past_end_returns_witness :
  exists (v w : Z),
    readVarInt {| buffer := [x07; x96; x80]; offset := 1 |}
    = Return v {| buffer := [x07; x96; x80]; offset := 4 |}
    /\ readVarInt {| buffer := [x07; x96; x80; x00]; offset := 1 |}
       = Return v {| buffer := [x07; x96; x80; x00]; offset := 4 |}
    /\ readVarLong {| buffer := [x07; x96; x80]; offset := 1 |}
       = Return w {| buffer := [x07; x96; x80]; offset := 4 |}
    /\ readVarLong {| buffer := [x07; x96; x80; x00]; offset := 1 |}
       = Return w {| buffer := [x07; x96; x80; x00]; offset := 4 |}
    /\ 1 + (2 + 1) = 3 + 1.
Proof.
  apply (varint_past_end_returns (L := Z)
           {| buffer := [x07; x96; x80]; offset := 1 |}).
  - vm_compute. split; discriminate.
  - vm_compute. reflexivity.
Defined.

(** ** readVarInt on given bytes *)

Lemma unread_of_get (d : Decoder) (v : Z) :
  Buffer.get (buffer d) (offset d) = Some v ->
  exists b rest, unread d = b :: rest /\ Buffer.byteValue b = v.
Proof.
  rewrite get_unread. destruct (unread d) as [| b rest]; simpl; intros E.
  - discriminate.
  - exists b, rest. split; congruence.
Qed.

(** C6.  On a buffer whose next bytes are [0x96, 0x01], [readVarInt]
    returns 75 and advances the offset by 2; on a buffer whose next byte is
    [0x01] it returns -1 and advances the offset by 1. *)
Theorem readVarInt_examples (d : Decoder) :
  (Buffer.get (buffer d) (offset d) = Some 0x96 ->
   Buffer.get (buffer d) (offset d + 1) = Some 0x01 ->
   readVarInt d = Return 75 (advanced d 2))
  /\ (Buffer.get (buffer d) (offset d) = Some 0x01 ->
      readVarInt d = Return (-1) (advanced d 1)).
Proof.
  split.
  - intros E0 E1.
    destruct (unread_of_get d _ E0) as (b0 & rest0 & U0 & V0).
    pose proof (unread_bump d b0 rest0 U0) as Ub.
    destruct (unread_of_get (bump d) _ E1) as (b1 & rest1 & U1 & V1).
    subst rest0.
    rewrite readVarInt_unfold, U0.
    rewrite varintLength_cons, readVarInt_loop_cons.
    rewrite continuation_spec, V0.
    change (128 <=? 150) with true. cbv iota.
    rewrite U1, varintLength_cons, readVarInt_loop_cons.
    rewrite continuation_spec, V1. reflexivity.
  - intros E0.
    destruct (unread_of_get d _ E0) as (b0 & rest0 & U0 & V0).
    rewrite readVarInt_unfold, U0.
    rewrite !varintLength_cons, !readVarInt_loop_cons.
    rewrite !continuation_spec, V0. reflexivity.
Qed.

Lemma readVarInt_examples_witness :
  readVarInt {| buffer := [x96; x01; x2a]; offset := 0 |}
  = Return 75 {| buffer := [x96; x01; x2a]; offset := 2 |}
  /\ readVarInt {| buffer := [x2a; x01]; offset := 1 |}
     = Return (-1) {| buffer := [x2a; x01]; offset := 2 |}.
Proof.
  split.
  - apply (proj1 (readVarInt_examples
                    {| buffer := [x96; x01; x2a]; offset := 0 |})
             eq_refl eq_refl).
  - apply (proj2 (readVarInt_examples
                    {| buffer := [x2a; x01]; offset := 1 |})
             eq_refl).
Defined.

(** ** readVarInt against 32-bit wrap-around accumulation *)

Lemma roundNumber_exact (z : Z) :
  Z.abs z <= 2 ^ 53 -> JS.roundNumber z = z.
Proof.
  intros H. unfold JS.roundNumber, JS.MAX_EXACT.
  destruct (Z.leb_spec (Z.abs z) (2 ^ 53)); [reflexivity | lia].
Qed.

Lemma ToInt32_add_l (a b : Z) : JS.ToInt32 (JS.ToInt32 a + b) = JS.ToInt32 (a + b).
Proof.
  unfold JS.ToInt32. f_equal.
  replace ((a + 2 ^ 31) mod 2 ^ 32 - 2 ^ 31 + b + 2 ^ 31)
    with ((a + 2 ^ 31) mod 2 ^ 32 + b) by lia.
  rewrite Z.add_mod_idemp_l by (vm_compute; discriminate).
  f_equal. lia.
Qed.

Lemma ToUint32_ToInt32 (x : Z) : JS.ToUint32 (JS.ToInt32 x) = JS.ToUint32 x.
Proof.
  unfold JS.ToUint32, JS.ToInt32.
  change (2 ^ 31) with 2147483648. change (2 ^ 32) with 4294967296.
  Z.div_mod_to_equations. lia.
Qed.

Lemma ToInt32_idem (x : Z) : JS.ToInt32 (JS.ToInt32 x) = JS.ToInt32 x.
Proof. apply ToInt32_id, ToInt32_range. Qed.

Lemma decodeZigZag_ToInt32 (x : Z) :
  decodeZigZag (JS.ToInt32 x) = decodeZigZag x.
Proof.
  unfold decodeZigZag, JS.ushr, JS.band.
  rewrite ToUint32_ToInt32, ToInt32_idem. reflexivity.
Qed.

Lemma shiftCount_mod32 (i : Z) : JS.shiftCount i = i mod 32.
Proof.
  unfold JS.shiftCount, JS.ToUint32.
  change 31 with (Z.ones 5). rewrite Z.land_ones by lia.
  change (2 ^ 32) with 4294967296. change (2 ^ 5) with 32.
  Z.div_mod_to_equations. lia.
Qed.

Lemma payload_bits (b : byte) :
  JS.band_value (Some (Buffer.byteValue b)) OTHER_BITS
  = Z.land (Buffer.byteValue b) 0x7f
  /\ 0 <= Z.land (Buffer.byteValue b) 0x7f < 128.
Proof.
  pose proof (byteValue_range b) as Hb.
  unfold JS.band_value, JS.band, OTHER_BITS.
  rewrite (ToInt32_id (Buffer.byteValue b))
    by (unfold isInt32; change (2 ^ 31) with 2147483648; lia).
  change (JS.ToInt32 127) with 127. split; [reflexivity |].
  change 127 with (Z.ones 7). rewrite Z.land_ones by lia.
  apply Z.mod_pos_bound. reflexivity.
Qed.

(** One step of the loop adds, without rounding, a 32-bit term: the payload
    bits shifted by the count modulo 32. *)
Lemma accumulate_exact (result : Z) (b : byte) (i k : Z) :
  0 <= k < 2 ^ 22 -> Z.abs result <= k * 2 ^ 31 ->
  exists t, isInt32 t
    /\ t = shlCountMod32 (Z.land (Buffer.byteValue b) 0x7f) i
    /\ accumulate result (Some (Buffer.byteValue b)) i = result + t.
Proof.
  intros Hk Hr.
  destruct (payload_bits b) as [Hp Hrange].
  exists (shlCountMod32 (Z.land (Buffer.byteValue b) 0x7f) i).
  split; [| split].
  - unfold shlCountMod32. change wrap32 with JS.ToInt32. apply ToInt32_range.
  - reflexivity.
  - unfold accumulate, JS.add. rewrite Hp.
    assert (Hs : JS.shl (Z.land (Buffer.byteValue b) 127) i
                 = shlCountMod32 (Z.land (Buffer.byteValue b) 127) i).
    { unfold JS.shl, shlCountMod32. change wrap32 with JS.ToInt32. rewrite shiftCount_mod32.
      rewrite (ToInt32_id (Z.land _ _))
        by (unfold isInt32; change (2 ^ 31) with 2147483648; lia).
      reflexivity. }
    rewrite Hs. apply roundNumber_exact.
    pose proof (ToInt32_range
                  (Z.shiftl (Z.land (Buffer.byteValue b) 127) (i mod 32))) as Ht.
    unfold shlCountMod32. change wrap32 with JS.ToInt32.
    unfold isInt32 in Ht.
    change (2 ^ 22) with 4194304 in *.
    change (2 ^ 31) with 2147483648 in *.
    change (2 ^ 53) with 9007199254740992. lia.
Qed.

Lemma varintLength_sequence (bytes rest : list byte) :
  isVarintSequence bytes = true ->
  varintLength (bytes ++ rest) = length bytes.
Proof.
  induction bytes as [| b bytes IH]; intros Hseq; [discriminate |].
  rewrite <- app_comm_cons, varintLength_cons.
  destruct bytes as [| b' bytes'].
  - simpl in Hseq. apply negb_true_iff in Hseq. rewrite Hseq. reflexivity.
  - change (continuation b && isVarintSequence (b' :: bytes') = true) in Hseq.
    apply andb_prop in Hseq as [Hb Hrest].
    rewrite Hb, IH by assumption. reflexivity.
Qed.

(** The loop, on a complete encoding of fewer than [2^22] bytes, holds a
    sum congruent modulo [2^32] to the 32-bit accumulation. *)
Lemma readVarInt_loop_refines (bytes : list byte) :
  forall rest result i d k,
    isVarintSequence bytes = true ->
    0 <= k -> k + Z.of_nat (length bytes) <= 2 ^ 22 ->
    Z.abs result <= k * 2 ^ 31 ->
    JS.ToInt32 (fst (readVarInt_loop (bytes ++ rest) result i d))
    = varint32 shlCountMod32 bytes (JS.ToInt32 result) i.
Proof.
  induction bytes as [| b bytes IH]; intros rest result i d k Hseq Hk Hlen Hr;
    [discriminate |].
  rewrite <- app_comm_cons, readVarInt_loop_cons.
  assert (Hk' : 0 <= k < 2 ^ 22) by (simpl length in Hlen; lia).
  destruct (accumulate_exact result b i k Hk' Hr) as (t & Ht & Et & Eacc).
  rewrite Eacc.
  assert (Estep : wrap32 (JS.ToInt32 result + t) = JS.ToInt32 (result + t))
    by (change wrap32 with JS.ToInt32; apply ToInt32_add_l).
  destruct bytes as [| b' bytes'].
  - simpl in Hseq. apply negb_true_iff in Hseq. rewrite Hseq.
    simpl. rewrite <- Et, Estep. reflexivity.
  - change (continuation b && isVarintSequence (b' :: bytes') = true) in Hseq.
    apply andb_prop in Hseq as [Hb Hrest]. rewrite Hb.
    rewrite (IH rest (result + t) (i + 7) (bump d) (k + 1)).
    + cbn [varint32]. rewrite <- Et, Estep. reflexivity.
    + exact Hrest.
    + lia.
    + simpl length in *. lia.
    + unfold isInt32 in Ht. change (2 ^ 31) with 2147483648 in *. lia.
Qed.

(** With shift counts below 32 the two shifts agree. *)
Lemma varint32_short (bytes : list byte) :
  forall result i,
    0 <= i -> i + 7 * Z.of_nat (length bytes) <= 35 ->
    varint32 shlCountMod32 bytes result i
    = varint32 shlTruncating bytes result i.
Proof.
  induction bytes as [| b bytes IH]; intros result i Hi Hlen; [reflexivity |].
  cbn [varint32]. simpl length in Hlen.
  assert (Hmod : i mod 32 = i) by (apply Z.mod_small; lia).
  unfold shlCountMod32 at 2. rewrite Hmod. fold (shlTruncating (Z.land (Buffer.byteValue b) 127) i).
  apply IH; lia.
Qed.

(** C5, as amended.  On every complete continuation-bit byte sequence of
    fewer than [2^22] bytes at the cursor, [readVarInt] returns
    [decodeZigZag] of the accumulation [result += (byte & 0x7f) << shift],
    [shift += 7], carried out in 32-bit wrap-around arithmetic in which a
    shift takes its count modulo 32, and advances the offset by the length
    of the sequence.  For sequences of at most five bytes, which covers
    every encoding of a 32-bit value, that accumulation is the one whose
    shifts truncate to 32 bits. *)
Theorem readVarInt_is_32_bit_accumulation (d : Decoder)
    (bytes rest : list byte) :
  unread d = bytes ++ rest ->
  isVarintSequence bytes = true ->
  Z.of_nat (length bytes) < 2 ^ 22 ->
  readVarInt d
  = Return (decodeZigZag (varint32 shlCountMod32 bytes 0 0))
      (advanced d (Z.of_nat (length bytes)))
  /\ ((length bytes <= 5)%nat ->
      varint32 shlCountMod32 bytes 0 0 = varint32 shlTruncating bytes 0 0).
Proof.
  intros Hun Hseq Hlen. split.
  - rewrite readVarInt_unfold, Hun, varintLength_sequence by assumption.
    f_equal.
    rewrite <- decodeZigZag_ToInt32.
    rewrite (readVarInt_loop_refines bytes rest 0 0 d 0); try assumption.
    + reflexivity.
    + lia.
    + lia.
    + simpl. lia.
  - intros Hshort. apply varint32_short; lia.
Qed.

(** The amended C5 on the five-byte encoding of the smallest 32-bit value. *)
Lemma readVarInt_is_32_bit_accumulation_witness :
  readVarInt {| buffer := [xff; xff; xff; xff; x0f; x2a]; offset := 0 |}
  = Return (decodeZigZag
              (varint32 shlCountMod32 [xff; xff; xff; xff; x0f] 0 0))
      {| buffer := [xff; xff; xff; xff; x0f; x2a]; offset := 5 |}
  /\ varint32 shlCountMod32 [xff; xff; xff; xff; x0f] 0 0
     = varint32 shlTruncating [xff; xff; xff; xff; x0f] 0 0
  /\ decodeZigZag (varint32 shlTruncating [xff; xff; xff; xff; x0f] 0 0)
     = - 2 ^ 31.
Proof.
  destruct (readVarInt_is_32_bit_accumulation
              {| buffer := [xff; xff; xff; xff; x0f; x2a]; offset := 0 |}
              [xff; xff; xff; xff; x0f] [x2a]
              eq_refl eq_refl eq_refl) as [Hread Hshort].
  split; [exact Hread |].
  split; [apply Hshort; vm_compute; lia | reflexivity].
Defined.

(** C5 as stated fails on a sequence of six bytes: the sixth byte is
    shifted by [35], which [<<] takes modulo 32, so its payload bit lands at
    bit 3 and [readVarInt] returns 4, where shifts truncating to 32 bits
    drop it and give 0. *)
Lemma readVarInt_six_bytes_differs_from_truncating_shifts :
  isVarintSequence [x80; x80; x80; x80; x80; x01] = true
  /\ readVarInt {| buffer := [x80; x80; x80; x80; x80; x01]; offset := 0 |}
     = Return 4 {| buffer := [x80; x80; x80; x80; x80; x01]; offset := 6 |}
  /\ decodeZigZag
       (varint32 shlTruncating [x80; x80; x80; x80; x80; x01] 0 0) = 0.
Proof. repeat split. Qed.

(** ** The cursor across operations *)

Lemma stateOf_discard {A} (m : M A) (d : Decoder) :
  stateOf (discard m d) = stateOf (m d)
  /\ throws (discard m d) = throws (m d).
Proof. unfold discard, bind, ret. destruct (m d); split; reflexivity. Qed.

(** A fixed-width read either throws, leaving the decoder as it was, or
    returns with the cursor advanced by its width. *)
Lemma readFixed_outcome (k : FixedWidth) (d : Decoder) :
  (exists e, readFixed k d = Throw e d)
  \/ (exists v, readFixed k d = Return v (advanced d (widthOf k))).
Proof.
  destruct k; unfold readFixed, readInt8, readInt16, readInt32, readInt64,
    bind, atOffset, advance, ret, advanced, widthOf.
  - destruct (Buffer.readInt8 (buffer d) (offset d)); eauto.
  - destruct (Buffer.readInt16BE (buffer d) (offset d)); eauto.
  - destruct (Buffer.readInt32BE (buffer d) (offset d)); eauto.
  - destruct (readBigInt64BE (buffer d) (offset d)); eauto.
Qed.

Lemma widthOf_pos (k : FixedWidth) : 0 < widthOf k.
Proof. destruct k; reflexivity. Qed.

Lemma readFixed_monotone (k : FixedWidth) (d : Decoder) :
  buffer (stateOf (readFixed k d)) = buffer d
  /\ offset d <= offset (stateOf (readFixed k d)).
Proof.
  pose proof (widthOf_pos k).
  destruct (readFixed_outcome k d) as [[e E] | [v E]]; rewrite E; simpl.
  - split; [reflexivity | lia].
  - split; [reflexivity | lia].
Qed.

Lemma readBoolean_as_readInt8 (d : Decoder) :
  stateOf (readBoolean d) = stateOf (readInt8 d)
  /\ throws (readBoolean d) = throws (readInt8 d).
Proof. unfold readBoolean, bind, ret. destruct (readInt8 d); split; reflexivity. Qed.

Lemma readVarInt_monotone (d : Decoder) :
  buffer (stateOf (readVarInt d)) = buffer d
  /\ offset d < offset (stateOf (readVarInt d)).
Proof.
  rewrite readVarInt_unfold. simpl. split; [reflexivity |].
  destruct (unread d) as [| b rest]; [simpl; lia |].
  rewrite varintLength_cons. destruct (continuation b); lia.
Qed.

Lemma readVarLong_monotone (d : Decoder) :
  buffer (stateOf (readVarLong (L := Z) d)) = buffer d
  /\ offset d < offset (stateOf (readVarLong (L := Z) d)).
Proof.
  rewrite readVarLong_unfold. simpl. split; [reflexivity |].
  destruct (unread d) as [| b rest]; [simpl; lia |].
  rewrite varintLength_cons. destruct (continuation b); lia.
Qed.

Lemma stringOfLength_state (n : Z) (d : Decoder) :
  stateOf (stringOfLength n d) = if n =? -1 then d else advanced d n.
Proof. unfold stringOfLength. destruct (n =? -1); reflexivity. Qed.

Lemma bytesOfLength_state (n : Z) (d : Decoder) :
  stateOf (bytesOfLength n d) = if n =? -1 then d else advanced d n.
Proof. unfold bytesOfLength. destruct (n =? -1); reflexivity. Qed.

(** After a length prefix read by [prefix], a payload of declared length
    at least -1 does not move the cursor backwards. *)
Lemma payload_monotone {A} (prefix : M Z) (body : Z -> M A) (d : Decoder) :
  (forall n d1, stateOf (body n d1) = if n =? -1 then d1 else advanced d1 n) ->
  buffer (stateOf (prefix d)) = buffer d ->
  offset d <= offset (stateOf (prefix d)) ->
  buffer (stateOf (bind prefix body d)) = buffer d
  /\ (notBelowNull (prefix d) = true ->
      offset d <= offset (stateOf (bind prefix body d))).
Proof.
  intros Hbody Hbuf Hoff. unfold bind.
  destruct (prefix d) as [n d1 | e d1]; simpl in *.
  - rewrite Hbody. destruct (Z.eqb_spec n (-1)); simpl.
    + split; [assumption | intros _; assumption].
    + split; [assumption |]. intros Hn. apply Z.leb_le in Hn. lia.
  - split; [assumption | intros _; assumption].
Qed.

Lemma readElements_monotone {A} (reader : M A) (n : nat) :
  (forall d0, offset d0 <= offset (stateOf (reader d0))) ->
  forall array d, offset d <= offset (stateOf (readElements reader n array d)).
Proof.
  intros Hreader. induction n as [| n IH]; intros array d.
  - simpl. lia.
  - simpl. unfold bind. specialize (Hreader d).
    destruct (reader d) as [x d1 | e d1]; simpl in *.
    + specialize (IH (array ++ [x]) d1). lia.
    + assumption.
Qed.

Lemma arrayOfLength_monotone {A} (reader : M A) (len : Z) (d : Decoder) :
  (forall d0, offset d0 <= offset (stateOf (reader d0))) ->
  offset d <= offset (stateOf (arrayOfLength reader len d)).
Proof.
  intros Hreader. unfold arrayOfLength.
  destruct (len =? -1); [simpl; lia |].
  apply readElements_monotone. exact Hreader.
Qed.

(** C3, as amended.  Every operation leaves the buffer as it is.  The
    offset does not decrease across an operation unless [forward] is given
    a negative size or a payload read a length below -1, and not across the
    array readers when it does not across the element reader.  A
    fixed-width read started with [0 <= offset <= length(buffer)] either
    returns, with the offset advanced by its width and still at most
    [length(buffer)], or, when that would take the offset past
    [length(buffer)], throws and leaves the offset where it was. *)
Theorem offset_discipline (op : Op) (d : Decoder) :
  buffer (stateOf (perform op d)) = buffer d
  /\ (declaredSizeOk op d = true -> offset d <= offset (stateOf (perform op d)))
  /\ (forall k,
        fixedWidthOf op = Some k ->
        0 <= offset d <= Buffer.byteLength (buffer d) ->
        if throws (perform op d)
        then stateOf (perform op d) = d
             /\ Buffer.byteLength (buffer d) < offset d + widthOf k
        else stateOf (perform op d) = advanced d (widthOf k)
             /\ offset d + widthOf k <= Buffer.byteLength (buffer d))
  /\ (forall (A : Type) (reader : M A),
        (forall d0, offset d0 <= offset (stateOf (reader d0))) ->
        offset d <= offset (stateOf (readArray reader d))
        /\ offset d <= offset (stateOf (readVarIntArray reader d))).
Proof.
  assert (Hfixed : forall k (m : M unit),
            stateOf (m d) = stateOf (readFixed k d) ->
            throws (m d) = throws (readFixed k d) ->
            0 <= offset d <= Buffer.byteLength (buffer d) ->
            if throws (m d)
            then stateOf (m d) = d
                 /\ Buffer.byteLength (buffer d) < offset d + widthOf k
            else stateOf (m d) = advanced d (widthOf k)
                 /\ offset d + widthOf k <= Buffer.byteLength (buffer d)).
  { intros k m Hs Ht Hd. rewrite Hs, Ht.
    destruct (Z.lt_ge_cases (remaining d) (widthOf k)) as [Hlt | Hge].
    - destruct (readFixed_underrun k d Hlt) as [e E]. rewrite E. simpl.
      unfold remaining in Hlt. split; [reflexivity | lia].
    - destruct (readFixed_enough k d (proj1 Hd) Hge) as [v E]. rewrite E.
      simpl. unfold remaining in Hge. split; [reflexivity | lia]. }
  assert (Hprefix16 := readFixed_monotone Int16 d).
  assert (Hprefix32 := readFixed_monotone Int32 d).
  assert (Hprefixvar := readVarInt_monotone d).
  cbn [readFixed] in Hprefix16, Hprefix32.
  split; [| split; [| split]].
  - destruct op; simpl perform;
      try (rewrite (proj1 (stateOf_discard _ d)));
      try apply (proj1 (readFixed_monotone Int8 d));
      try apply (proj1 (readFixed_monotone Int64 d));
      try apply (proj1 Hprefix16); try apply (proj1 Hprefix32);
      try apply (proj1 Hprefixvar);
      try apply (proj1 (readVarLong_monotone d));
      try reflexivity.
    + rewrite (proj1 (readBoolean_as_readInt8 d)).
      apply (proj1 (readFixed_monotone Int8 d)).
    + apply (payload_monotone readInt16 stringOfLength d
               stringOfLength_state (proj1 Hprefix16) (proj2 Hprefix16)).
    + apply (payload_monotone readVarInt stringOfLength d
               stringOfLength_state (proj1 Hprefixvar)).
      apply Z.lt_le_incl, (proj2 Hprefixvar).
    + destruct explicitLength as [n |].
      * unfold readBytes, bind, ret. rewrite bytesOfLength_state.
        destruct (n =? -1); reflexivity.
      * apply (payload_monotone readInt32 bytesOfLength d
                 bytesOfLength_state (proj1 Hprefix32) (proj2 Hprefix32)).
    + apply (payload_monotone readVarInt bytesOfLength d
               bytesOfLength_state (proj1 Hprefixvar)).
      apply Z.lt_le_incl, (proj2 Hprefixvar).
  - intros Hok. destruct op; simpl perform; simpl declaredSizeOk in Hok;
      try (rewrite (proj1 (stateOf_discard _ d)));
      try apply (proj2 (readFixed_monotone Int8 d));
      try apply (proj2 (readFixed_monotone Int64 d));
      try apply (proj2 Hprefix16); try apply (proj2 Hprefix32);
      try (apply Z.lt_le_incl, (proj2 Hprefixvar));
      try (apply Z.lt_le_incl, (proj2 (readVarLong_monotone d))).
    + rewrite (proj1 (readBoolean_as_readInt8 d)).
      apply (proj2 (readFixed_monotone Int8 d)).
    + apply (payload_monotone readInt16 stringOfLength d
               stringOfLength_state (proj1 Hprefix16) (proj2 Hprefix16)).
      exact Hok.
    + apply (payload_monotone readVarInt stringOfLength d
               stringOfLength_state (proj1 Hprefixvar)
               (Z.lt_le_incl _ _ (proj2 Hprefixvar))).
      exact Hok.
    + destruct explicitLength as [n |].
      * unfold readBytes, bind, ret. rewrite bytesOfLength_state.
        apply Z.leb_le in Hok.
        destruct (Z.eqb_spec n (-1)); simpl; lia.
      * apply (payload_monotone readInt32 bytesOfLength d
                 bytesOfLength_state (proj1 Hprefix32) (proj2 Hprefix32)).
        exact Hok.
    + apply (payload_monotone readVarInt bytesOfLength d
               bytesOfLength_state (proj1 Hprefixvar)
               (Z.lt_le_incl _ _ (proj2 Hprefixvar))).
      exact Hok.
    + simpl. pose proof (byteLength_nonneg (buffer d)). lia.
    + simpl. lia.
    + simpl. apply Z.leb_le in Hok. lia.
  - intros k Hk Hd. destruct op; simpl in Hk; try discriminate;
      injection Hk as <-; simpl perform.
    + apply (Hfixed Int8); [apply stateOf_discard | apply stateOf_discard | exact Hd].
    + apply (Hfixed Int16); [apply stateOf_discard | apply stateOf_discard | exact Hd].
    + apply (Hfixed Int32); [apply stateOf_discard | apply stateOf_discard | exact Hd].
    + apply (Hfixed Int64); [apply stateOf_discard | apply stateOf_discard | exact Hd].
    + apply (Hfixed Int8); [| | exact Hd].
      * rewrite (proj1 (stateOf_discard _ d)). apply readBoolean_as_readInt8.
      * rewrite (proj2 (stateOf_discard _ d)). apply readBoolean_as_readInt8.
  - intros A reader Hreader. split.
    + unfold readArray, bind.
      destruct (readInt32 d) as [n d1 | e d1]; simpl in *.
      * pose proof (arrayOfLength_monotone reader n d1 Hreader). lia.
      * apply (proj2 Hprefix32).
    + unfold readVarIntArray, bind.
      destruct (readVarInt d) as [n d1 | e d1]; simpl in *.
      * pose proof (arrayOfLength_monotone reader n d1 Hreader). lia.
      * lia.
Qed.

(** The amended C3 at concrete states: [readString] with a payload of one
    byte moves the offset forwards, and [readInt32] with two bytes left
    throws and leaves the decoder as it was. *)
Lemma offset_discipline_witness :
  offset {| buffer := [x00; x01; x61; x62]; offset := 0 |}
  <= offset (stateOf (perform OpReadString
                        {| buffer := [x00; x01; x61; x62]; offset := 0 |}))
  /\ (stateOf (perform OpReadInt32 {| buffer := [x2a; x00; x05]; offset := 1 |})
      = {| buffer := [x2a; x00; x05]; offset := 1 |}
      /\ 3 < 1 + 4).
Proof.
  split.
  - apply (proj1 (proj2 (offset_discipline OpReadString
                           {| buffer := [x00; x01; x61; x62]; offset := 0 |}))).
    vm_compute. reflexivity.
  - exact (proj1 (proj2 (proj2 (offset_discipline OpReadInt32
                           {| buffer := [x2a; x00; x05]; offset := 1 |})))
             Int32 eq_refl
             ltac:(vm_compute; split; discriminate)).
Defined.

(** C3 as stated fails.  [readString] on the prefix [0xFF 0xFD] (-3) returns
    with the offset moved from 0 back to -1; [readAll] from offset 1 of a
    two-byte buffer returns with the offset at 3; [readString] with declared
    length 5 and two bytes of payload returns with the offset at 7 in a
    buffer of 4 bytes; none of them throws. *)
Lemma offset_can_decrease_and_pass_the_end :
  readString {| buffer := [xff; xfd; x61]; offset := 0 |}
  = Return (Some (toString_utf8 []))
      {| buffer := [xff; xfd; x61]; offset := -1 |}
  /\ readAll {| buffer := [x00; x01]; offset := 1 |}
     = Return [x01] {| buffer := [x00; x01]; offset := 3 |}
  /\ readString {| buffer := [x00; x05; x61; x62]; offset := 0 |}
     = Return (Some (toString_utf8 [x61; x62]))
         {| buffer := [x00; x05; x61; x62]; offset := 7 |}.
Proof. repeat split. Qed.

(** * Further properties of the decoder *)

(** ** Probes and fixed-width reads *)

(** X1.  With the cursor at a position [0 <= offset], a fixed-width read
    throws exactly when the probe [canReadBytes] for its width answers
    false: [canReadInt16/32/64] tell whether [readInt16/32/64] will
    return. *)
Theorem probe_decides_fixed_read (k : FixedWidth) (d : Decoder) :
  0 <= offset d ->
  throws (readFixed k d) = negb (canReadBytes (widthOf k) d)
  /\ (canReadInt16 d = negb (throws (readInt16 d))
      /\ canReadInt32 d = negb (throws (readInt32 d))
      /\ canReadInt64 d = negb (throws (readInt64 d))).
Proof.
  intros H0.
  assert (G : forall k', throws (readFixed k' d)
                         = negb (canReadBytes (widthOf k') d)).
  { intros k'. unfold canReadBytes. fold (remaining d).
    destruct (Z.leb_spec (widthOf k') (remaining d)) as [Hge | Hlt].
    - destruct (readFixed_enough k' d H0 Hge) as [v E]. rewrite E. reflexivity.
    - destruct (readFixed_underrun k' d Hlt) as [e E]. rewrite E. reflexivity. }
  split; [apply G |].
  pose proof (G Int16) as G16. pose proof (G Int32) as G32.
  pose proof (G Int64) as G64.
  cbn [readFixed widthOf] in G16, G32, G64.
  unfold canReadInt16, canReadInt32, canReadInt64.
  rewrite G16, G32, G64, !negb_involutive. repeat split.
Qed.

Lemma probe_decides_fixed_read_witness :
  throws (readInt32 {| buffer := [x00; x01; x02]; offset := 0 |})
  = negb (canReadBytes 4 {| buffer := [x00; x01; x02]; offset := 0 |}).
Proof.
  apply (proj1 (probe_decides_fixed_read Int32
                  {| buffer := [x00; x01; x02]; offset := 0 |}
                  ltac:(vm_compute; discriminate))).
Defined.

(** ** The values of the fixed-width reads *)

Lemma get_nth_unread (d : Decoder) (j : Z) (b : byte) :
  0 <= offset d -> 0 <= j ->
  nth_error (unread d) (Z.to_nat j) = Some b ->
  Buffer.get (buffer d) (offset d + j) = Some (Buffer.byteValue b).
Proof.
  intros H0 Hj E. rewrite unread_skipn in E by assumption.
  rewrite nth_error_skipn in E. unfold Buffer.get.
  destruct (Z.ltb_spec (offset d + j) 0) as [Hneg | _]; [lia |].
  replace (Z.to_nat (offset d + j))
    with (Z.to_nat (offset d) + Z.to_nat j)%nat by lia.
  rewrite E. reflexivity.
Qed.

Lemma shl_24 (v : Z) :
  0 <= v < 256 ->
  JS.shl v 24 = if v <? 128 then v * 2 ^ 24 else v * 2 ^ 24 - 2 ^ 32.
Proof.
  intros Hv. unfold JS.shl. change (JS.shiftCount 24) with 24.
  rewrite (ToInt32_id v)
    by (unfold isInt32; change (2 ^ 31) with 2147483648; lia).
  rewrite Z.shiftl_mul_pow2 by lia. unfold JS.ToInt32.
  change (2 ^ 24) with 16777216. change (2 ^ 31) with 2147483648.
  change (2 ^ 32) with 4294967296.
  destruct (Z.ltb_spec v 128); Z.div_mod_to_equations; lia.
Qed.

(** The unread bytes, when at least [n] remain, start with [n] bytes. *)
Lemma unread_enough (d : Decoder) (n : nat) :
  0 <= offset d -> Z.of_nat n <= remaining d ->
  (n <= length (unread d))%nat.
Proof.
  intros H0 Hn. rewrite unread_skipn by assumption. rewrite length_skipn.
  unfold remaining, Buffer.byteLength in Hn. lia.
Qed.

(** The value and the state of a fixed-width read with enough bytes. *)
Lemma readFixed_value (k : FixedWidth) (d : Decoder) :
  0 <= offset d -> widthOf k <= remaining d ->
  readFixed k d
  = Return (Buffer.signed (8 * widthOf k)
              (unsignedBE (firstn (Z.to_nat (widthOf k)) (unread d))))
      (advanced d (widthOf k)).
Proof.
  intros H0 Hw.
  pose proof (unread_enough d (Z.to_nat (widthOf k)) H0) as Hlen.
  pose proof (get_unread d) as Hhead.
  pose proof (get_nth_unread d) as Hnth.
  destruct k; unfold widthOf, INT8_SIZE, INT16_SIZE, INT32_SIZE,
    INT64_SIZE in *; specialize (Hlen ltac:(lia)); unfold_read;
    unfold advanced.
  - destruct (unread d) as [| b0 rest]; [simpl in Hlen; lia |].
    rewrite Hhead. reflexivity.
  - destruct (unread d) as [| b0 [| b1 rest]]; try (simpl in Hlen; lia).
    rewrite Hhead, (Hnth 1 b1 H0 ltac:(lia) eq_refl).
    reflexivity.
  - destruct (unread d) as [| b0 [| b1 [| b2 [| b3 rest]]]];
      try (simpl in Hlen; lia).
    rewrite Hhead, (Hnth 1 b1 H0 ltac:(lia) eq_refl),
      (Hnth 2 b2 H0 ltac:(lia) eq_refl), (Hnth 3 b3 H0 ltac:(lia) eq_refl).
    cbn [option_map hd_error]. f_equal.
    pose proof (byteValue_range b0). pose proof (byteValue_range b1).
    pose proof (byteValue_range b2). pose proof (byteValue_range b3).
    rewrite shl_24 by assumption.
    unfold unsignedBE, Buffer.signed.
    change (Z.to_nat 4) with 4%nat. cbn [firstn fold_left].
    change (8 * 4 - 1) with 31. change (8 * 4) with 32.
    change (2 ^ 24) with 16777216. change (2 ^ 16) with 65536.
    change (2 ^ 8) with 256. change (2 ^ 31) with 2147483648.
    change (2 ^ 32) with 4294967296.
    repeat match goal with
      | |- context [?x <? ?y] => destruct (Z.ltb_spec x y)
      end; lia.
  - destruct (unread d)
      as [| b0 [| b1 [| b2 [| b3 [| b4 [| b5 [| b6 [| b7 rest]]]]]]]];
      try (simpl in Hlen; lia).
    rewrite Hhead, (Hnth 1 b1 H0 ltac:(lia) eq_refl),
      (Hnth 2 b2 H0 ltac:(lia) eq_refl), (Hnth 3 b3 H0 ltac:(lia) eq_refl),
      (Hnth 4 b4 H0 ltac:(lia) eq_refl), (Hnth 5 b5 H0 ltac:(lia) eq_refl),
      (Hnth 6 b6 H0 ltac:(lia) eq_refl), (Hnth 7 b7 H0 ltac:(lia) eq_refl).
    cbn [option_map hd_error]. f_equal.
    pose proof (byteValue_range b0). pose proof (byteValue_range b1).
    pose proof (byteValue_range b2). pose proof (byteValue_range b3).
    pose proof (byteValue_range b4). pose proof (byteValue_range b5).
    pose proof (byteValue_range b6). pose proof (byteValue_range b7).
    rewrite shl_24 by assumption. rewrite Z.shiftl_mul_pow2 by lia.
    unfold unsignedBE, Buffer.signed.
    change (Z.to_nat 8) with 8%nat. cbn [firstn fold_left].
    change (8 * 8 - 1) with 63. change (8 * 8) with 64.
    change (2 ^ 24) with 16777216. change (2 ^ 16) with 65536.
    change (2 ^ 8) with 256. change (2 ^ 63) with 9223372036854775808.
    change (2 ^ 32) with 4294967296.
    change (2 ^ 64) with 18446744073709551616.
    repeat match goal with
      | |- context [?x <? ?y] => destruct (Z.ltb_spec x y)
      end; lia.
Qed.

(** X2.  With at least as many bytes left as its width [w], a fixed-width
    read ([readInt8/16/32/64]) returns the next [w] bytes read as a
    big-endian two's-complement number and advances the offset by [w]; so
    on the big-endian encoding of a signed [8w]-bit [n] it returns [n]. *)
Theorem readFixed_big_endian_twos_complement (k : FixedWidth) (d : Decoder) :
  0 <= offset d -> widthOf k <= remaining d ->
  readFixed k d
  = Return (Buffer.signed (8 * widthOf k)
              (unsignedBE (firstn (Z.to_nat (widthOf k)) (unread d))))
      (advanced d (widthOf k))
  /\ (forall n,
        - 2 ^ (8 * widthOf k - 1) <= n < 2 ^ (8 * widthOf k - 1) ->
        unsignedBE (firstn (Z.to_nat (widthOf k)) (unread d))
        = n mod 2 ^ (8 * widthOf k) ->
        readFixed k d = Return n (advanced d (widthOf k))).
Proof.
  intros H0 Hw.
  pose proof (readFixed_value k d H0 Hw) as Hread.
  split; [exact Hread |].
  intros n Hn Hbytes. rewrite Hread, Hbytes. f_equal.
  unfold Buffer.signed.
  assert (Hpos : 0 < 8 * widthOf k - 1) by (destruct k; reflexivity).
  assert (Hpow : 2 ^ (8 * widthOf k) = 2 * 2 ^ (8 * widthOf k - 1)).
  { rewrite <- Z.pow_succ_r by lia. f_equal. lia. }
  rewrite Hpow.
  set (h := 2 ^ (8 * widthOf k - 1)) in *.
  assert (Hh : 0 < h) by (apply Z.pow_pos_nonneg; lia).
  destruct (Z.lt_ge_cases n 0) as [Hneg | Hnonneg].
  - assert (Hmod : n mod (2 * h) = n + 2 * h).
    { rewrite <- (Z.mod_add n 1 (2 * h)) by lia.
      rewrite Z.mul_1_l. apply Z.mod_small. lia. }
    rewrite Hmod. destruct (Z.ltb_spec (n + 2 * h) h); lia.
  - rewrite Z.mod_small by lia. destruct (Z.ltb_spec n h); lia.
Qed.

(** X2 on the encoding [FF FF FF FE] of -2. *)
Lemma readFixed_big_endian_twos_complement_witness :
  readInt32 {| buffer := [x2a; xff; xff; xff; xfe]; offset := 1 |}
  = Return (-2) {| buffer := [x2a; xff; xff; xff; xfe]; offset := 5 |}.
Proof.
  apply (proj2 (readFixed_big_endian_twos_complement Int32
                  {| buffer := [x2a; xff; xff; xff; xfe]; offset := 1 |}
                  ltac:(vm_compute; discriminate)
                  ltac:(vm_compute; discriminate)) (-2)).
  - vm_compute. split; [discriminate | reflexivity].
  - vm_compute. reflexivity.
Defined.

(** ** readBoolean *)

(** X3.  [readBoolean] returns [true] exactly when the byte at the cursor
    is 1: every other byte value, 0xFF and 2 included, gives [false]; with
    no byte left it throws and leaves the decoder as it was. *)
Theorem readBoolean_true_only_for_one (d : Decoder) :
  (forall v, Buffer.get (buffer d) (offset d) = Some v ->
             readBoolean d = Return (v =? 1) (advanced d 1))
  /\ (Buffer.get (buffer d) (offset d) = None ->
      exists e, readBoolean d = Throw e d).
Proof.
  split.
  - intros v E.
    destruct (unread_of_get d v E) as (b & rest & _ & Hv).
    pose proof (byteValue_range b) as Hb. rewrite Hv in Hb.
    unfold readBoolean, readInt8, bind, atOffset, advance, ret,
      Buffer.readInt8, advanced, INT8_SIZE.
    rewrite E. f_equal. unfold Buffer.signed.
    change (2 ^ (8 - 1)) with 128. change (2 ^ 8) with 256.
    destruct (Z.ltb_spec v 128); [reflexivity |].
    destruct (Z.eqb_spec (v - 256) 1); destruct (Z.eqb_spec v 1);
      try reflexivity; lia.
  - intros E.
    unfold readBoolean, readInt8, bind, atOffset, Buffer.readInt8.
    rewrite E. eauto.
Qed.

Lemma readBoolean_true_only_for_one_witness :
  readBoolean {| buffer := [x01; x02]; offset := 1 |}
  = Return false {| buffer := [x01; x02]; offset := 2 |}
  /\ exists e, readBoolean {| buffer := [x01; x02]; offset := 2 |}
               = Throw e {| buffer := [x01; x02]; offset := 2 |}.
Proof.
  split.
  - apply (proj1 (readBoolean_true_only_for_one
                    {| buffer := [x01; x02]; offset := 1 |}) 2 eq_refl).
  - apply (proj2 (readBoolean_true_only_for_one
                    {| buffer := [x01; x02]; offset := 2 |}) eq_refl).
Defined.

(** ** Payloads inside the buffer *)

(** A slice of [n] bytes that starts inside the buffer is the next [n]
    bytes, or those there are. *)
Lemma slice_window (buf : Buffer.t) (start n : Z) :
  0 <= start <= Buffer.byteLength buf -> 0 <= n ->
  Buffer.slice buf start (Some (start + n))
  = firstn (Z.to_nat n) (skipn (Z.to_nat start) buf).
Proof.
  intros Hs Hn.
  destruct (Z.lt_ge_cases (Buffer.byteLength buf) (start + n)) as [Hout | Hin].
  - rewrite slice_beyond_end by lia. symmetry. apply firstn_all2.
    rewrite length_skipn. unfold Buffer.byteLength in *. lia.
  - unfold Buffer.slice, Buffer.adjustOffset.
    set (len := Buffer.byteLength buf) in *.
    assert (Hstart : (if start =? 0 then 0
                      else if start <? 0
                           then if 0 <? start + len then start + len else 0
                           else if start <? len then start else len) = start).
    { destruct (Z.eqb_spec start 0); [lia |].
      destruct (Z.ltb_spec start 0); [lia |].
      destruct (Z.ltb_spec start len); lia. }
    assert (Hend : (if start + n =? 0 then 0
                    else if start + n <? 0
                         then if 0 <? start + n + len
                              then start + n + len else 0
                         else if start + n <? len then start + n else len)
                   = start + n).
    { destruct (Z.eqb_spec (start + n) 0); [lia |].
      destruct (Z.ltb_spec (start + n) 0); [lia |].
      destruct (Z.ltb_spec (start + n) len); lia. }
    rewrite Hstart, Hend.
    destruct (Z.ltb_spec start (start + n)).
    + do 2 f_equal. lia.
    + replace n with 0 by lia. reflexivity.
Qed.

Lemma sliceAtOffset_window (d : Decoder) (n : Z) :
  0 <= offset d <= Buffer.byteLength (buffer d) -> 0 <= n ->
  sliceAtOffset n d = Return (firstn (Z.to_nat n) (unread d)) d.
Proof.
  intros Hd Hn. unfold sliceAtOffset.
  rewrite slice_window by assumption.
  rewrite unread_skipn by lia. reflexivity.
Qed.

Lemma bytesOfLength_window (d : Decoder) (n : Z) :
  0 <= offset d <= Buffer.byteLength (buffer d) -> 0 <= n ->
  bytesOfLength n d
  = Return (Some (firstn (Z.to_nat n) (unread d))) (advanced d n).
Proof.
  intros Hd Hn. unfold bytesOfLength.
  destruct (Z.eqb_spec n (-1)); [lia |].
  unfold bind. rewrite sliceAtOffset_window by assumption. reflexivity.
Qed.

Lemma stringOfLength_window (d : Decoder) (n : Z) :
  0 <= offset d <= Buffer.byteLength (buffer d) -> 0 <= n ->
  stringOfLength n d
  = Return (Some (toString_utf8 (firstn (Z.to_nat n) (unread d))))
      (advanced d n).
Proof.
  intros Hd Hn. unfold stringOfLength.
  destruct (Z.eqb_spec n (-1)); [lia |].
  unfold bind. rewrite sliceAtOffset_window by assumption. reflexivity.
Qed.

Lemma length_window (d : Decoder) (n : Z) :
  0 <= offset d -> 0 <= n <= remaining d ->
  Z.of_nat (length (firstn (Z.to_nat n) (unread d))) = n.
Proof.
  intros H0 Hn.
  assert (Hd : 0 <= offset d <= Buffer.byteLength (buffer d))
    by (unfold remaining in Hn; lia).
  pose proof (length_unread d Hd) as Hlen.
  rewrite length_firstn. lia.
Qed.

(** X4.  With [d] the state at the start of a payload whose length [n]
    satisfies [0 <= n <= remaining]: [readBytes(n)], [readBytes()] after a
    32-bit prefix [n], and [readVarIntBytes] after a varint prefix [n] all
    return exactly the next [n] bytes, not [null] even for [n = 0], and
    leave the offset [n] further, still inside the buffer. *)
Theorem readBytes_inside_buffer (d : Decoder) (n : Z) :
  0 <= offset d -> 0 <= n <= remaining d ->
  readBytes (Some n) d
  = Return (Some (firstn (Z.to_nat n) (unread d))) (advanced d n)
  /\ (forall d0, readInt32 d0 = Return n d ->
                 readBytes None d0
                 = Return (Some (firstn (Z.to_nat n) (unread d)))
                     (advanced d n))
  /\ (forall d0, readVarInt d0 = Return n d ->
                 readVarIntBytes d0
                 = Return (Some (firstn (Z.to_nat n) (unread d)))
                     (advanced d n))
  /\ Z.of_nat (length (firstn (Z.to_nat n) (unread d))) = n
  /\ offset (advanced d n) <= Buffer.byteLength (buffer d).
Proof.
  intros H0 Hn.
  assert (Hd : 0 <= offset d <= Buffer.byteLength (buffer d))
    by (unfold remaining in Hn; lia).
  pose proof (bytesOfLength_window d n Hd (proj1 Hn)) as Hbody.
  repeat split.
  - exact Hbody.
  - intros d0 E. unfold readBytes, bind. rewrite E. exact Hbody.
  - intros d0 E. unfold readVarIntBytes, bind. rewrite E. exact Hbody.
  - apply length_window; assumption.
  - unfold remaining in Hn. simpl. lia.
Qed.

Lemma readBytes_inside_buffer_witness :
  readBytes (Some 0) {| buffer := [x61; x62; x63]; offset := 3 |}
  = Return (Some []) {| buffer := [x61; x62; x63]; offset := 3 |}
  /\ readBytes None {| buffer := [x00; x00; x00; x02; x61; x62; x63];
                        offset := 0 |}
     = Return (Some [x61; x62])
         {| buffer := [x00; x00; x00; x02; x61; x62; x63]; offset := 6 |}.
Proof.
  split.
  - apply (proj1 (readBytes_inside_buffer
                    {| buffer := [x61; x62; x63]; offset := 3 |} 0
                    ltac:(vm_compute; discriminate)
                    ltac:(vm_compute; split; discriminate))).
  - apply (proj1 (proj2 (readBytes_inside_buffer
                    {| buffer := [x00; x00; x00; x02; x61; x62; x63];
                       offset := 4 |} 2
                    ltac:(vm_compute; discriminate)
                    ltac:(vm_compute; split; discriminate)))
             {| buffer := [x00; x00; x00; x02; x61; x62; x63]; offset := 0 |}
             eq_refl).
Defined.

(** X5.  With [d] the state just after a length prefix [n] with
    [0 <= n <= remaining]: [readString] (16-bit prefix) and
    [readVarIntString] (varint prefix) return the text of exactly the next
    [n] bytes, the empty text and not [null] for [n = 0], and leave the
    offset [n] further, still inside the buffer. *)
Theorem readString_inside_buffer (d : Decoder) (n : Z) :
  0 <= offset d -> 0 <= n <= remaining d ->
  (forall d0, readInt16 d0 = Return n d ->
              readString d0
              = Return (Some (toString_utf8
                                (firstn (Z.to_nat n) (unread d))))
                  (advanced d n))
  /\ (forall d0, readVarInt d0 = Return n d ->
                 readVarIntString d0
                 = Return (Some (toString_utf8
                                   (firstn (Z.to_nat n) (unread d))))
                     (advanced d n))
  /\ Z.of_nat (length (firstn (Z.to_nat n) (unread d))) = n
  /\ offset (advanced d n) <= Buffer.byteLength (buffer d).
Proof.
  intros H0 Hn.
  assert (Hd : 0 <= offset d <= Buffer.byteLength (buffer d))
    by (unfold remaining in Hn; lia).
  pose proof (stringOfLength_window d n Hd (proj1 Hn)) as Hbody.
  repeat split.
  - intros d0 E. unfold readString, bind. rewrite E. exact Hbody.
  - intros d0 E. unfold readVarIntString, bind. rewrite E. exact Hbody.
  - apply length_window; assumption.
  - unfold remaining in Hn. simpl. lia.
Qed.

Lemma readString_inside_buffer_witness :
  readString {| buffer := [x00; x02; x61; x62; x63]; offset := 0 |}
  = Return (Some (toString_utf8 [x61; x62]))
      {| buffer := [x00; x02; x61; x62; x63]; offset := 4 |}
  /\ readVarIntString {| buffer := [x00; x61]; offset := 0 |}
     = Return (Some (toString_utf8 []))
         {| buffer := [x00; x61]; offset := 1 |}.
Proof.
  split.
  - apply (proj1 (readString_inside_buffer
                    {| buffer := [x00; x02; x61; x62; x63]; offset := 2 |} 2
                    ltac:(vm_compute; discriminate)
                    ltac:(vm_compute; split; discriminate))
             {| buffer := [x00; x02; x61; x62; x63]; offset := 0 |} eq_refl).
  - apply (proj1 (proj2 (readString_inside_buffer
                    {| buffer := [x00; x61]; offset := 1 |} 0
                    ltac:(vm_compute; discriminate)
                    ltac:(vm_compute; split; discriminate)))
             {| buffer := [x00; x61]; offset := 0 |} eq_refl).
Defined.

(** ** Sub-decoders *)

Lemma unread_advanced (d : Decoder) (n : Z) :
  0 <= offset d -> 0 <= n ->
  unread (advanced d n) = skipn (Z.to_nat n) (unread d).
Proof.
  intros H0 Hn. rewrite !unread_skipn by (simpl; lia). simpl.
  rewrite skipn_skipn. f_equal. lia.
Qed.

Lemma unread_newDecoder (buf : Buffer.t) : unread (newDecoder buf) = buf.
Proof. reflexivity. Qed.

(** X6.  With the cursor inside the buffer and [size >= 0], [slice(size)]
    returns a fresh decoder at offset 0 over the next [size] bytes (those
    there are, if fewer) without moving the parent, and the customary
    [forward(size)] then skips exactly those bytes: the sub-decoder's
    buffer followed by what the parent has left is what the parent had. *)
Theorem slice_then_forward_partitions (d : Decoder) (size : Z) :
  0 <= offset d <= Buffer.byteLength (buffer d) -> 0 <= size ->
  slice size d = Return (newDecoder (firstn (Z.to_nat size) (unread d))) d
  /\ firstn (Z.to_nat size) (unread d) ++ unread (stateOf (forward size d))
     = unread d
  /\ Buffer.byteLength (firstn (Z.to_nat size) (unread d))
     = Z.min size (remaining d).
Proof.
  intros Hd Hsize. split; [| split].
  - unfold slice, bind, ret.
    rewrite sliceAtOffset_window by assumption. reflexivity.
  - change (stateOf (forward size d)) with (advanced d size).
    rewrite unread_advanced by lia. apply firstn_skipn.
  - unfold Buffer.byteLength. rewrite length_firstn.
    pose proof (length_unread d Hd). lia.
Qed.

Lemma slice_then_forward_partitions_witness :
  slice 2 {| buffer := [x01; x02; x03; x04]; offset := 1 |}
  = Return (newDecoder [x02; x03])
      {| buffer := [x01; x02; x03; x04]; offset := 1 |}
  /\ [x02; x03]
     ++ unread (stateOf (forward 2 {| buffer := [x01; x02; x03; x04];
                                      offset := 1 |}))
     = [x02; x03; x04].
Proof.
  destruct (slice_then_forward_partitions
              {| buffer := [x01; x02; x03; x04]; offset := 1 |} 2
              ltac:(vm_compute; split; discriminate)
              ltac:(vm_compute; discriminate)) as (Hs & Hp & _).
  split; [exact Hs | exact Hp].
Defined.

(** X7.  A fixed-width read on the sub-decoder that [slice(size)] returns
    gives the value the same read gives on the parent, whenever the parent
    has the bytes and [size] is at least the width: the sub-decoder is a
    faithful window on the parent's unread bytes. *)
Theorem slice_reads_as_parent (k : FixedWidth) (d : Decoder) (size : Z) :
  0 <= offset d -> widthOf k <= size -> widthOf k <= remaining d ->
  exists sub v,
    slice size d = Return sub d
    /\ readFixed k sub = Return v (advanced sub (widthOf k))
    /\ readFixed k d = Return v (advanced d (widthOf k)).
Proof.
  intros H0 Hsize Hrem.
  pose proof (widthOf_pos k) as Hw.
  assert (Hd : 0 <= offset d <= Buffer.byteLength (buffer d))
    by (unfold remaining in Hrem; lia).
  assert (Hslice : slice size d
                   = Return (newDecoder (firstn (Z.to_nat size) (unread d)))
                       d).
  { unfold slice, bind, ret.
    rewrite sliceAtOffset_window by (try assumption; lia). reflexivity. }
  assert (Hlen : Buffer.byteLength (firstn (Z.to_nat size) (unread d))
                 = Z.min size (remaining d)).
  { unfold Buffer.byteLength. rewrite length_firstn.
    pose proof (length_unread d Hd). lia. }
  set (sub := newDecoder (firstn (Z.to_nat size) (unread d))) in *.
  exists sub,
    (Buffer.signed (8 * widthOf k)
       (unsignedBE (firstn (Z.to_nat (widthOf k)) (unread d)))).
  split; [exact Hslice |]. split.
  - rewrite (readFixed_value k sub).
    + do 3 f_equal. subst sub. rewrite unread_newDecoder.
      rewrite firstn_firstn. f_equal. lia.
    + subst sub. simpl. lia.
    + subst sub. unfold remaining. simpl buffer. simpl offset.
      rewrite Hlen. lia.
  - apply readFixed_value; assumption.
Qed.

Lemma slice_reads_as_parent_witness :
  exists sub v,
    slice 5 {| buffer := [x2a; xff; xff; xff; xfe; x00]; offset := 1 |}
    = Return sub {| buffer := [x2a; xff; xff; xff; xfe; x00]; offset := 1 |}
    /\ readInt32 sub = Return v (advanced sub 4)
    /\ readInt32 {| buffer := [x2a; xff; xff; xff; xfe; x00]; offset := 1 |}
       = Return v {| buffer := [x2a; xff; xff; xff; xfe; x00]; offset := 5 |}.
Proof.
  apply (slice_reads_as_parent Int32
           {| buffer := [x2a; xff; xff; xff; xfe; x00]; offset := 1 |} 5).
  - vm_compute. discriminate.
  - vm_compute. discriminate.
  - vm_compute. discriminate.
Defined.

(** ** Arrays *)

(** The element loop returns the array extended by exactly [n] elements, or
    throws. *)
Lemma readElements_length {A} (reader : M A) (n : nat) :
  forall array d xs d',
    readElements reader n array d = Return xs d' ->
    length xs = (length array + n)%nat.
Proof.
  induction n as [| n IH]; intros array d xs d' E.
  - simpl in E. unfold ret in E. injection E as <- _. lia.
  - simpl in E. unfold bind in E.
    destruct (reader d) as [x d1 | e d1]; [| discriminate].
    apply IH in E. rewrite length_app in E. simpl in E. lia.
Qed.

Lemma arrayOfLength_outcome {A} (reader : M A) (count : Z) (d1 : Decoder) :
  (forall xs d', arrayOfLength reader count d1 = Return xs d' ->
                 length xs = Z.to_nat count)
  /\ (count <= 0 -> arrayOfLength reader count d1 = Return [] d1)
  /\ (0 < count -> forall e d', reader d1 = Throw e d' ->
                                arrayOfLength reader count d1 = Throw e d').
Proof.
  unfold arrayOfLength. split; [| split].
  - intros xs d' E. destruct (Z.eqb_spec count (-1)) as [-> | _].
    + unfold ret in E. injection E as <- _. reflexivity.
    + apply readElements_length in E. exact E.
  - intros Hc. destruct (count =? -1); [reflexivity |].
    replace (Z.to_nat count) with 0%nat by lia. reflexivity.
  - intros Hc e d' E. destruct (Z.eqb_spec count (-1)); [lia |].
    destruct (Z.to_nat count) as [| m] eqn:En; [lia |].
    simpl. unfold bind. rewrite E. reflexivity.
Qed.

(** X8.  After a count prefix [count] ([readInt32] for [readArray],
    [readVarInt] for [readVarIntArray]) an array read that returns has
    exactly [max(count, 0)] elements; every count [<= 0], not only -1,
    gives the empty array without calling the element reader; and with a
    positive count an element reader that throws on the first element makes
    the whole call throw that error. *)
Theorem readArray_element_count {A : Type} (reader : M A) (d d1 : Decoder)
    (count : Z) :
  (readInt32 d = Return count d1 ->
   (forall xs d', readArray reader d = Return xs d' ->
                  length xs = Z.to_nat count)
   /\ (count <= 0 -> readArray reader d = Return [] d1)
   /\ (0 < count -> forall e d', reader d1 = Throw e d' ->
                                 readArray reader d = Throw e d'))
  /\ (readVarInt d = Return count d1 ->
      (forall xs d', readVarIntArray reader d = Return xs d' ->
                     length xs = Z.to_nat count)
      /\ (count <= 0 -> readVarIntArray reader d = Return [] d1)
      /\ (0 < count -> forall e d', reader d1 = Throw e d' ->
                                    readVarIntArray reader d = Throw e d')).
Proof.
  split; intros E.
  - unfold readArray, bind. rewrite E. apply arrayOfLength_outcome.
  - unfold readVarIntArray, bind. rewrite E. apply arrayOfLength_outcome.
Qed.

Lemma readArray_element_count_witness :
  readArray readInt16
    {| buffer := [xff; xff; xff; xfb; x00; x01]; offset := 0 |}
  = Return [] {| buffer := [xff; xff; xff; xfb; x00; x01]; offset := 4 |}.
Proof.
  apply (proj1 (proj2 (proj1 (readArray_element_count readInt16
           {| buffer := [xff; xff; xff; xfb; x00; x01]; offset := 0 |}
           {| buffer := [xff; xff; xff; xfb; x00; x01]; offset := 4 |}
           (-5)) eq_refl))).
  vm_compute. discriminate.
Defined.

Lemma advanced_zero (d : Decoder) : advanced d 0 = d.
Proof. destruct d. unfold advanced. simpl. rewrite Z.add_0_r. reflexivity. Qed.

Lemma readInt8_step (d : Decoder) (b : byte) (rest : list byte) :
  unread d = b :: rest ->
  readInt8 d = Return (Buffer.signed 8 (Buffer.byteValue b)) (bump d).
Proof.
  intros U. unfold readInt8, bind, atOffset, advance, ret, Buffer.readInt8.
  rewrite get_unread, U. reflexivity.
Qed.

Lemma readInt8_at_end (d : Decoder) :
  unread d = [] -> exists e, readInt8 d = Throw e d.
Proof.
  intros U. unfold readInt8, bind, atOffset, Buffer.readInt8.
  rewrite get_unread, U. simpl. eauto.
Qed.

Lemma readElements_readInt8 (n : nat) :
  forall array d,
    (n <= length (unread d))%nat ->
    readElements readInt8 n array d
    = Return (array ++ map (fun b => Buffer.signed 8 (Buffer.byteValue b))
                         (firstn n (unread d)))
        (advanced d (Z.of_nat n)).
Proof.
  induction n as [| n IH]; intros array d Hn.
  - simpl. rewrite app_nil_r, advanced_zero. reflexivity.
  - destruct (unread d) as [| b rest] eqn:U; [simpl in Hn; lia |].
    simpl readElements. unfold bind.
    rewrite (readInt8_step d b rest U).
    rewrite IH by (rewrite (unread_bump d b rest U); simpl in Hn; lia).
    rewrite (unread_bump d b rest U), advanced_bump.
    simpl firstn. simpl map. rewrite <- app_assoc. reflexivity.
Qed.

Lemma readElements_readInt8_underrun (n : nat) :
  forall array d,
    (length (unread d) < n)%nat ->
    exists e, readElements readInt8 n array d
              = Throw e (advanced d (Z.of_nat (length (unread d)))).
Proof.
  induction n as [| n IH]; intros array d Hn; [lia |].
  simpl readElements. unfold bind.
  destruct (unread d) as [| b rest] eqn:U.
  - destruct (readInt8_at_end d U) as [e E]. rewrite E.
    exists e. simpl. rewrite advanced_zero. reflexivity.
  - rewrite (readInt8_step d b rest U).
    destruct (IH (array ++ [Buffer.signed 8 (Buffer.byteValue b)]) (bump d))
      as [e E].
    { rewrite (unread_bump d b rest U). simpl in Hn. lia. }
    rewrite E, (unread_bump d b rest U), advanced_bump.
    exists e. reflexivity.
Qed.

(** X9.  [readArray] with [readInt8] as element reader, after a count
    prefix [count]: when [0 <= count] bytes are left it returns those bytes
    as signed 8-bit values in buffer order and leaves the offset just after
    them; when fewer than [count] bytes are left it throws, with the offset
    at the end of the buffer, and returns no partial array. *)
Theorem readArray_readInt8_in_order (d d1 : Decoder) (count : Z) :
  readInt32 d = Return count d1 ->
  (0 <= count <= remaining d1 ->
   readArray readInt8 d
   = Return (map (fun b => Buffer.signed 8 (Buffer.byteValue b))
               (firstn (Z.to_nat count) (unread d1)))
       (advanced d1 count))
  /\ (remaining d1 < count ->
      exists e, readArray readInt8 d = Throw e (advanced d1 (remaining d1))).
Proof.
  intros E.
  destruct (readFixed_returned Int32 d d1 count E) as (Hd1 & H0 & Hw).
  assert (Hin : 0 <= offset d1 <= Buffer.byteLength (buffer d1)).
  { subst d1. unfold remaining, widthOf, INT32_SIZE in *. simpl. lia. }
  pose proof (length_unread d1 Hin) as Hlen.
  unfold readArray, bind. rewrite E. unfold arrayOfLength. split.
  - intros Hc. destruct (Z.eqb_spec count (-1)); [lia |].
    rewrite readElements_readInt8 by lia.
    rewrite Z2Nat.id by lia. reflexivity.
  - intros Hc. assert (0 <= remaining d1) by (unfold remaining; lia).
    destruct (Z.eqb_spec count (-1)); [lia |].
    destruct (readElements_readInt8_underrun (Z.to_nat count) [] d1)
      as [e Ee]; [lia |].
    exists e. rewrite Ee, Hlen. reflexivity.
Qed.

Lemma readArray_readInt8_in_order_witness :
  readArray readInt8
    {| buffer := [x00; x00; x00; x02; xff; x01; x07]; offset := 0 |}
  = Return [-1; 1]
      {| buffer := [x00; x00; x00; x02; xff; x01; x07]; offset := 6 |}
  /\ exists e,
       readArray readInt8
         {| buffer := [x00; x00; x00; x03; xff; x01]; offset := 0 |}
       = Throw e {| buffer := [x00; x00; x00; x03; xff; x01]; offset := 6 |}.
Proof.
  split.
  - apply (proj1 (readArray_readInt8_in_order
                    {| buffer := [x00; x00; x00; x02; xff; x01; x07];
                       offset := 0 |}
                    {| buffer := [x00; x00; x00; x02; xff; x01; x07];
                       offset := 4 |} 2 eq_refl)).
    vm_compute. split; discriminate.
  - apply (proj2 (readArray_readInt8_in_order
                    {| buffer := [x00; x00; x00; x03; xff; x01];
                       offset := 0 |}
                    {| buffer := [x00; x00; x00; x03; xff; x01];
                       offset := 4 |} 3 eq_refl)).
    vm_compute. reflexivity.
Defined.

(** ** How far the varint readers move the cursor *)

Lemma varintLength_bounds (rest : list byte) :
  (1 <= varintLength rest <= S (length rest))%nat.
Proof.
  induction rest as [| b rest IH]; [simpl; lia |].
  rewrite varintLength_cons. destruct (continuation b); simpl; lia.
Qed.

Lemma varintLength_stops (pre rest : list byte) (b : byte) :
  forallb continuation pre = true -> continuation b = false ->
  varintLength (pre ++ b :: rest) = S (length pre).
Proof.
  intros Hpre Hb. induction pre as [| a pre IH].
  - simpl app. rewrite varintLength_cons, Hb. reflexivity.
  - simpl in Hpre. apply andb_prop in Hpre as [Ha Hpre].
    rewrite <- app_comm_cons, varintLength_cons, Ha, IH by exact Hpre.
    reflexivity.
Qed.

Section VarLongCursor.

Context {L : Type} `{Long.Ops L}.

(** X10.  [readVarInt] leaves the cursor just after the first unread byte
    without continuation bit, however many bytes with continuation bit
    precede it; from a cursor inside the buffer it advances by at least
    one byte and stops at most one byte past the end of the buffer.
    [readVarLong], with [Long] operations that return, leaves the cursor
    where [readVarInt] does. *)
Theorem varint_readers_move_alike (d : Decoder) :
  (forall pre b rest,
      unread d = pre ++ b :: rest ->
      forallb continuation pre = true -> continuation b = false ->
      stateOf (readVarInt d) = advanced d (Z.of_nat (length pre) + 1))
  /\ (0 <= offset d <= Buffer.byteLength (buffer d) ->
      offset d < offset (stateOf (readVarInt d))
      <= Buffer.byteLength (buffer d) + 1)
  /\ stateOf (readVarLong d) = stateOf (readVarInt d).
Proof.
  rewrite readVarInt_unfold, readVarLong_unfold. simpl.
  split; [| split; [| reflexivity]].
  - intros pre b rest Hun Hpre Hb.
    rewrite Hun, (varintLength_stops pre rest b Hpre Hb).
    f_equal. lia.
  - intros Hd.
    pose proof (varintLength_bounds (unread d)) as Hlen.
    pose proof (length_unread d Hd) as Hrem. unfold remaining in Hrem. lia.
Qed.

End VarLongCursor.

Lemma varint_readers_move_alike_witness :
  stateOf (readVarInt
             {| buffer := [x2a; x80; x80; x80; x80; x80; x80; x01; x07];
                offset := 1 |})
  = {| buffer := [x2a; x80; x80; x80; x80; x80; x80; x01; x07];
       offset := 8 |}
  /\ offset {| buffer := [x01; x80; x80]; offset := 1 |}
     < offset (stateOf (readVarInt
                          {| buffer := [x01; x80; x80]; offset := 1 |}))
     <= 3 + 1.
Proof.
  split.
  - apply (proj1 (varint_readers_move_alike (L := Z)
                    {| buffer := [x2a; x80; x80; x80; x80; x80; x80; x01; x07];
                       offset := 1 |})
             [x80; x80; x80; x80; x80; x80] x01 [x07]
             eq_refl eq_refl eq_refl).
  - apply (proj1 (proj2 (varint_readers_move_alike (L := Z)
                    {| buffer := [x01; x80; x80]; offset := 1 |}))).
    vm_compute. split; discriminate.
Defined.

(** ** The value readVarInt returns *)

Lemma ToInt32_congruent (x y : Z) :
  x mod 2 ^ 32 = y mod 2 ^ 32 -> JS.ToInt32 x = JS.ToInt32 y.
Proof.
  intros E. unfold JS.ToInt32. f_equal.
  rewrite <- (Z.add_mod_idemp_l x), <- (Z.add_mod_idemp_l y)
    by (vm_compute; discriminate).
  rewrite E. reflexivity.
Qed.

Lemma decodeZigZag_congruent (x y : Z) :
  x mod 2 ^ 32 = y mod 2 ^ 32 -> decodeZigZag x = decodeZigZag y.
Proof.
  intros E. rewrite <- (decodeZigZag_ToInt32 x), <- (decodeZigZag_ToInt32 y).
  rewrite (ToInt32_congruent x y E). reflexivity.
Qed.

(** X11.  [decodeZigZag] depends on its argument modulo [2^32] only, maps
    an even residue [m] to [m / 2] and an odd one to [-(m + 1) / 2], and
    always returns a signed 32-bit value. *)
Theorem decodeZigZag_closed_form (u : Z) :
  decodeZigZag u
  = (if Z.even (u mod 2 ^ 32)
     then (u mod 2 ^ 32) / 2
     else - ((u mod 2 ^ 32 + 1) / 2))
  /\ isInt32 (decodeZigZag u).
Proof.
  assert (Hform : decodeZigZag u
                  = if Z.even (u mod 2 ^ 32)
                    then (u mod 2 ^ 32) / 2
                    else - ((u mod 2 ^ 32 + 1) / 2)).
  { unfold decodeZigZag, JS.ushr, JS.band, JS.bxor, JS.neg.
    change (JS.shiftCount 1) with 1. change (JS.ToInt32 1) with 1.
    rewrite Z.shiftr_div_pow2 by lia. change (2 ^ 1) with 2.
    rewrite land_1. unfold JS.ToUint32.
    set (m := u mod 2 ^ 32).
    assert (Hm : 0 <= m < 2 ^ 32)
      by (apply Z.mod_pos_bound; reflexivity).
    assert (Hpar : JS.ToInt32 u mod 2 = m mod 2).
    { unfold JS.ToInt32. subst m.
      change (2 ^ 31) with 2147483648 in *.
      change (2 ^ 32) with 4294967296 in *.
      Z.div_mod_to_equations. lia. }
    rewrite Hpar. change (2 ^ 32) with 4294967296 in Hm.
    rewrite (ToInt32_id (m / 2))
      by (unfold isInt32; change (2 ^ 31) with 2147483648;
          Z.div_mod_to_equations; lia).
    destruct (Z.even m) eqn:Ev.
    - apply Z.even_spec in Ev. destruct Ev as [q Hq].
      replace (m mod 2) with 0 by (Z.div_mod_to_equations; lia).
      change (JS.ToInt32 (- 0)) with 0. apply Z.lxor_0_r.
    - assert (Hodd : Z.odd m = true)
        by (rewrite <- Z.negb_even, Ev; reflexivity).
      apply Z.odd_spec in Hodd. destruct Hodd as [q Hq].
      replace (m mod 2) with 1 by (Z.div_mod_to_equations; lia).
      change (JS.ToInt32 (- (1))) with (-1).
      rewrite lxor_m1. Z.div_mod_to_equations. lia. }
  split; [exact Hform |].
  rewrite Hform. unfold isInt32.
  pose proof (Z.mod_pos_bound u (2 ^ 32) ltac:(reflexivity)) as Hm.
  change (2 ^ 31) with 2147483648. change (2 ^ 32) with 4294967296 in *.
  destruct (Z.even (u mod 4294967296)); Z.div_mod_to_equations; lia.
Qed.

(** The accumulation with truncating shifts is, modulo [2^32], the
    base-128 value of the payload bits scaled by the first shift. *)
Lemma varint32_truncating_value (bytes : list byte) :
  forall result shift,
    0 <= shift ->
    varint32 shlTruncating bytes result shift mod 2 ^ 32
    = (result + le128 bytes * 2 ^ shift) mod 2 ^ 32.
Proof.
  induction bytes as [| b bytes IH]; intros result shift Hs.
  - simpl. f_equal. lia.
  - cbn [varint32 le128]. rewrite IH by lia.
    set (p := Z.land (Buffer.byteValue b) 127).
    assert (Hstep : wrap32 (result + shlTruncating p shift) mod 2 ^ 32
                    = (result + p * 2 ^ shift) mod 2 ^ 32).
    { change wrap32 with JS.ToInt32. unfold shlTruncating.
      change wrap32 with JS.ToInt32.
      fold (JS.ToUint32 (JS.ToInt32 (result + JS.ToInt32 (Z.shiftl p shift)))).
      rewrite ToUint32_ToInt32. unfold JS.ToUint32.
      rewrite Z.add_mod by (vm_compute; discriminate).
      fold (JS.ToUint32 (JS.ToInt32 (Z.shiftl p shift))).
      rewrite ToUint32_ToInt32. unfold JS.ToUint32.
      rewrite <- Z.add_mod by (vm_compute; discriminate).
      rewrite Z.shiftl_mul_pow2 by lia. reflexivity. }
    rewrite Z.add_mod, Hstep, <- Z.add_mod by (vm_compute; discriminate).
    f_equal. rewrite Z.pow_add_r by lia. change (2 ^ 7) with 128. lia.
Qed.

(** X12.  On a complete continuation-bit sequence of at most five bytes at
    the cursor, [readVarInt] returns [decodeZigZag] of the number whose
    base-128 digits, least significant first, are the low seven bits of the
    bytes, and advances the offset by the length of the sequence. *)
Theorem readVarInt_base_128_value (d : Decoder) (bytes rest : list byte) :
  unread d = bytes ++ rest ->
  isVarintSequence bytes = true ->
  (length bytes <= 5)%nat ->
  readVarInt d
  = Return (decodeZigZag (le128 bytes)) (advanced d (Z.of_nat (length bytes))).
Proof.
  intros Hun Hseq Hlen.
  rewrite readVarInt_unfold, Hun, varintLength_sequence by assumption.
  f_equal.
  rewrite <- decodeZigZag_ToInt32.
  rewrite (readVarInt_loop_refines bytes rest 0 0 d 0)
    by (try assumption; change (2 ^ 22) with 4194304; simpl Z.abs; lia).
  rewrite varint32_short by lia.
  apply decodeZigZag_congruent.
  rewrite varint32_truncating_value by lia.
  f_equal. change (JS.ToInt32 0) with 0. change (2 ^ 0) with 1. lia.
Qed.

Lemma readVarInt_base_128_value_witness :
  readVarInt {| buffer := [xac; x02; x2a]; offset := 0 |}
  = Return (decodeZigZag (le128 [xac; x02]))
      {| buffer := [xac; x02; x2a]; offset := 2 |}
  /\ le128 [xac; x02] = 300.
Proof.
  split; [| reflexivity].
  apply (readVarInt_base_128_value
           {| buffer := [xac; x02; x2a]; offset := 0 |} [xac; x02] [x2a]
           eq_refl eq_refl).
  simpl. lia.
Defined.

(** X13.  Round trip with the zigzag mapping: when the base-128 digits of
    a complete sequence of at most five bytes at the cursor give, modulo
    [2^32], the zigzag encoding [(n << 1) xor (n >> 31)] of a signed 32-bit
    [n], [readVarInt] returns [n]. *)
Theorem readVarInt_returns_zigzag_encoded (d : Decoder)
    (bytes rest : list byte) (n : Z) :
  unread d = bytes ++ rest ->
  isVarintSequence bytes = true ->
  (length bytes <= 5)%nat ->
  isInt32 n ->
  le128 bytes mod 2 ^ 32 = encodeZigZag n mod 2 ^ 32 ->
  readVarInt d = Return n (advanced d (Z.of_nat (length bytes))).
Proof.
  intros Hun Hseq Hlen Hn Henc.
  rewrite readVarInt_unfold, Hun, varintLength_sequence by assumption.
  f_equal.
  rewrite <- decodeZigZag_ToInt32.
  rewrite (readVarInt_loop_refines bytes rest 0 0 d 0)
    by (try assumption; change (2 ^ 22) with 4194304; simpl Z.abs; lia).
  rewrite varint32_short by lia.
  transitivity (decodeZigZag (encodeZigZag n));
    [| apply decodeZigZag_encodeZigZag; exact Hn].
  apply decodeZigZag_congruent.
  rewrite varint32_truncating_value by lia.
  rewrite <- Henc. f_equal.
  change (JS.ToInt32 0) with 0. change (2 ^ 0) with 1. lia.
Qed.

(** X13 on the five-byte encoding of the largest 32-bit value. *)
Lemma readVarInt_returns_zigzag_encoded_witness :
  readVarInt {| buffer := [xfe; xff; xff; xff; x0f]; offset := 0 |}
  = Return 2147483647
      {| buffer := [xfe; xff; xff; xff; x0f]; offset := 5 |}.
Proof.
  apply (readVarInt_returns_zigzag_encoded
           {| buffer := [xfe; xff; xff; xff; x0f]; offset := 0 |}
           [xfe; xff; xff; xff; x0f] [] 2147483647 eq_refl eq_refl).
  - simpl. lia.
  - unfold isInt32. vm_compute. split; [discriminate | reflexivity].
  - vm_compute. reflexivity.
Defined.

(** ** Null and empty sentinels behind a varint prefix *)

(** X14.  When the byte at the cursor is [0x01], the varint of -1, the
    readers with a varint prefix take it as the sentinel:
    [readVarIntString] and [readVarIntBytes] return [null],
    [readVarIntArray] returns the empty array whatever the element reader,
    and each leaves the offset one byte further. *)
Theorem varint_prefixed_sentinels {A : Type} (reader : M A) (d : Decoder) :
  Buffer.get (buffer d) (offset d) = Some 0x01 ->
  readVarIntString d = Return None (advanced d 1)
  /\ readVarIntBytes d = Return None (advanced d 1)
  /\ readVarIntArray reader d = Return [] (advanced d 1).
Proof.
  intros E0.
  assert (E : readVarInt d = Return (-1) (advanced d 1)).
  { destruct (unread_of_get d _ E0) as (b0 & rest0 & U0 & V0).
    rewrite readVarInt_unfold, U0.
    rewrite varintLength_cons, readVarInt_loop_cons.
    rewrite continuation_spec, V0. reflexivity. }
  unfold readVarIntString, readVarIntBytes, readVarIntArray, bind.
  rewrite E. repeat split.
Qed.

Lemma varint_prefixed_sentinels_witness :
  readVarIntString {| buffer := [x2a; x01; x61]; offset := 1 |}
  = Return None {| buffer := [x2a; x01; x61]; offset := 2 |}
  /\ readVarIntBytes {| buffer := [x2a; x01; x61]; offset := 1 |}
     = Return None {| buffer := [x2a; x01; x61]; offset := 2 |}
  /\ readVarIntArray readInt8 {| buffer := [x2a; x01; x61]; offset := 1 |}
     = Return [] {| buffer := [x2a; x01; x61]; offset := 2 |}.
Proof.
  apply (varint_prefixed_sentinels readInt8
           {| buffer := [x2a; x01; x61]; offset := 1 |} eq_refl).
Defined.

(** ** After readAll *)

(** X15.  After [readAll], called with [0 <= offset], nothing is left to
    read: every fixed-width read and [readBoolean] throw, the probe
    [canReadBytes] answers false for every positive length, a second
    [readAll] returns no bytes, and [readVarInt] returns 0. *)
Theorem nothing_left_after_readAll (d : Decoder) :
  0 <= offset d ->
  (forall k, throws (readFixed k (stateOf (readAll d))) = true)
  /\ throws (readBoolean (stateOf (readAll d))) = true
  /\ (forall n, 0 < n -> canReadBytes n (stateOf (readAll d)) = false)
  /\ (exists d', readAll (stateOf (readAll d)) = Return [] d')
  /\ (exists d', readVarInt (stateOf (readAll d)) = Return 0 d').
Proof.
  intros H0.
  pose proof (byteLength_nonneg (buffer d)) as Hlen.
  change (stateOf (readAll d))
    with (advanced d (Buffer.byteLength (buffer d))).
  set (d1 := advanced d (Buffer.byteLength (buffer d))).
  assert (Hrem : remaining d1 <= 0)
    by (subst d1; unfold remaining; simpl; lia).
  assert (Hun : unread d1 = []).
  { rewrite unread_skipn by (subst d1; simpl; lia).
    apply skipn_all2. subst d1. simpl.
    unfold Buffer.byteLength in *. lia. }
  assert (Hfixed : forall k, throws (readFixed k d1) = true).
  { intros k. pose proof (widthOf_pos k).
    destruct (readFixed_underrun k d1 ltac:(lia)) as [e E].
    rewrite E. reflexivity. }
  repeat split.
  - exact Hfixed.
  - rewrite (proj2 (readBoolean_as_readInt8 d1)). apply (Hfixed Int8).
  - intros n Hn. unfold canReadBytes. fold (remaining d1).
    apply Z.leb_gt. lia.
  - eexists. unfold readAll. rewrite slice_to_end by (subst d1; simpl; lia).
    rewrite <- unread_skipn by (subst d1; simpl; lia).
    rewrite Hun. reflexivity.
  - eexists. rewrite readVarInt_unfold, Hun. reflexivity.
Qed.

Lemma nothing_left_after_readAll_witness :
  throws (readInt8 (stateOf (readAll {| buffer := [x01; x02]; offset := 0 |})))
  = true.
Proof.
  apply (proj1 (nothing_left_after_readAll
                  {| buffer := [x01; x02]; offset := 0 |}
                  ltac:(vm_compute; discriminate)) Int8).
Defined.

(** ** Negative declared lengths *)

Lemma slice_backwards (buf : Buffer.t) (start stop : Z) :
  0 <= stop <= start -> start <= Buffer.byteLength buf ->
  Buffer.slice buf start (Some stop) = [].
Proof.
  intros Hstop Hstart. unfold Buffer.slice, Buffer.adjustOffset.
  set (len := Buffer.byteLength buf) in *.
  assert (Es : (if start =? 0 then 0
                else if start <? 0
                     then if 0 <? start + len then start + len else 0
                     else if start <? len then start else len) = start).
  { destruct (Z.eqb_spec start 0); [lia |].
    destruct (Z.ltb_spec start 0); [lia |].
    destruct (Z.ltb_spec start len); lia. }
  assert (Ee : (if stop =? 0 then 0
                else if stop <? 0
                     then if 0 <? stop + len then stop + len else 0
                     else if stop <? len then stop else len) = stop).
  { destruct (Z.eqb_spec stop 0); [lia |].
    destruct (Z.ltb_spec stop 0); [lia |].
    destruct (Z.ltb_spec stop len); lia. }
  rewrite Es, Ee.
  destruct (Z.ltb_spec start stop); [lia | reflexivity].
Qed.

(** X16.  A negative declared length other than -1 is not rejected.  With
    the cursor inside the buffer, a length [n < -1] and [0 <= offset + n]:
    [readBytes(n)], [readBytes()] after a 32-bit prefix [n] and
    [readString] after a 16-bit prefix [n] return an empty payload (not
    [null]) and move the cursor backwards by [-n] bytes. *)
Theorem negative_length_moves_cursor_back (d : Decoder) (n : Z) :
  0 <= offset d <= Buffer.byteLength (buffer d) ->
  n < -1 -> 0 <= offset d + n ->
  readBytes (Some n) d = Return (Some []) (advanced d n)
  /\ (forall d0, readInt32 d0 = Return n d ->
                 readBytes None d0 = Return (Some []) (advanced d n))
  /\ (forall d0, readInt16 d0 = Return n d ->
                 readString d0
                 = Return (Some (toString_utf8 [])) (advanced d n))
  /\ offset (advanced d n) < offset d.
Proof.
  intros Hd Hn Hback.
  assert (Hslice : sliceAtOffset n d = Return [] d).
  { unfold sliceAtOffset. rewrite slice_backwards by lia. reflexivity. }
  assert (Hbytes : bytesOfLength n d = Return (Some []) (advanced d n)).
  { unfold bytesOfLength. destruct (Z.eqb_spec n (-1)); [lia |].
    unfold bind. rewrite Hslice. reflexivity. }
  assert (Hstring : stringOfLength n d
                    = Return (Some (toString_utf8 [])) (advanced d n)).
  { unfold stringOfLength. destruct (Z.eqb_spec n (-1)); [lia |].
    unfold bind. rewrite Hslice. reflexivity. }
  repeat split.
  - exact Hbytes.
  - intros d0 E. unfold readBytes, bind. rewrite E. exact Hbytes.
  - intros d0 E. unfold readString, bind. rewrite E. exact Hstring.
  - simpl. lia.
Qed.

Lemma negative_length_moves_cursor_back_witness :
  readString {| buffer := [x61; xff; xfd; x62]; offset := 1 |}
  = Return (Some (toString_utf8 []))
      {| buffer := [x61; xff; xfd; x62]; offset := 0 |}.
Proof.
  apply (proj1 (proj2 (proj2 (negative_length_moves_cursor_back
           {| buffer := [x61; xff; xfd; x62]; offset := 3 |} (-3)
           ltac:(vm_compute; split; discriminate)
           ltac:(vm_compute; reflexivity)
           ltac:(vm_compute; discriminate))))
           {| buffer := [x61; xff; xfd; x62]; offset := 1 |} eq_refl).
Defined.
